(** * Encoding-table generator ([meta/gen_encoding.py])

    A shallow embedding of the generator of the instruction-encoding tables:
    the encoding-list builder ([seq_doc], [EncList.encode]), the two-level
    table builder ([Level2Table], [Level1Table], [make_tables]), the driver
    ([encode_enclists], [emit_enclists], [gen_isa]) and the generator of the
    predicate dispatcher ([emit_instp], [emit_instps]).

    Python integers are unbounded, so table words are modelled as [Z];
    lengths and table offsets are [nat].  A failing [assert] is the error
    value [AssertionError] of the [result] monad.  Objects mutated in place
    (the tables, the interner, the doc table) are threaded explicitly. *)

From Stdlib Require Import ZArith HexadecimalString.
From stdpp Require Import base gmap strings list pretty.

Open Scope Z_scope.
#[local] Set Warnings "-clear-no-such-hyp".

(** ** Errors *)

Inductive result (A : Type) : Type :=
  | Ok (a : A)
  | AssertionError.
Arguments Ok {A} a.
Arguments AssertionError {A}.

Global Instance result_ret : MRet result := @Ok.
Global Instance result_bind : MBind result := λ A B k m,
  match m with
  | Ok a => k a
  | AssertionError => AssertionError
  end.

(** ** The instruction-set description (input of the generator) *)

Record ValueType := { ty_name : string }.
Record Instruction := { inst_name : string }.
Record InstructionFormat := { iform_name : string; boxed_storage : bool }.

Global Instance ValueType_eq_dec : EqDecision ValueType.
Proof. solve_decision. Defined.
Global Instance Instruction_eq_dec : EqDecision Instruction.
Proof. solve_decision. Defined.

(** An instruction predicate, with what the generator asks of it:
    [number], [predicate_context()], the field names of the leaves that
    [predicate_leafs] collects, the text of [rust_predicate(0)] and the
    text that [str] gives. *)
Module Instp.
Record t := {
  number : Z;
  predicate_context : InstructionFormat;
  predicate_leafs : list string;
  rust_predicate : string;
  str : string
}.
End Instp.

Module Recipe.
Record t := { number : Z; name : string }.
End Recipe.

(** An encoding.  [cpumode] is the text that [str] gives for the owning
    CPU mode and [str] the text it gives for the encoding itself: the
    generator only formats them. *)
Module Encoding.
Record t := {
  cpumode : string;
  inst : Instruction;
  ctrl_typevar : option ValueType;
  recipe : Recipe.t;
  encbits : Z;
  instp : option Instp.t;
  str : string
}.
End Encoding.

Record CPUMode := { mode_name : string; mode_encodings : list Encoding.t }.

Record TargetISA := {
  isa_name : string;
  all_instps : list Instp.t;
  cpumodes : list CPUMode
}.

(** ** Codes of the list format *)

Definition CODE_BITS : Z := 16.
Definition PRED_BITS : Z := 12.
Definition PRED_MASK : Z := Z.shiftl 1 PRED_BITS - 1.
Definition CODE_ALWAYS : Z := PRED_MASK.
Definition CODE_FAIL : Z := Z.shiftl 1 CODE_BITS - 1.

(** ** [seq_doc] *)

(** [if enc.instp] asks whether the encoding carries a predicate: a
    predicate object is always true, and an encoding without one holds
    [None]. *)
Definition seq_doc (enc : Encoding.t) : result ((Z * Z * Z) * string) :=
  let '(p, doc) :=
    match Encoding.instp enc with
    | Some instp =>
        (Instp.number instp,
         "--> " +:+ Encoding.str enc +:+ " when " +:+ Instp.str instp)
    | None => (CODE_ALWAYS, "--> " +:+ Encoding.str enc)
    end in
  if bool_decide (p ≤ CODE_ALWAYS)
  then Ok ((p, Recipe.number (Encoding.recipe enc), Encoding.encbits enc), doc)
  else AssertionError.

(** [words.extend(seq)] for a three-element tuple. *)
Definition extend (words : list Z) (seq : Z * Z * Z) : list Z :=
  let '(p, r, b) := seq in words ++ [p; r; b].

(** ** The sequence interner *)

(** Modelled from the spec: the class [UniqueSeqTable] of the module
    [unique_table], which is not part of the sources at hand.  The spec
    describes it as accepting finite word sequences, returning a stable
    offset for each, and storing identical sequences (including overlapping
    suffixes) at most once.  [table] is the flat word array and [index]
    remembers the offset of every sequence stored so far and of its tails. *)
Module UniqueSeqTable.
Record t := { table : list Z; index : gmap (list Z) nat }.

Definition empty : t := {| table := []; index := ∅ |}.

(** Remember [seq] and its non-empty tails, keeping earlier offsets. *)
Fixpoint index_tails (seq : list Z) (off : nat) (idx : gmap (list Z) nat)
  : gmap (list Z) nat :=
  match seq with
  | [] => idx
  | _ :: rest =>
      index_tails rest (S off)
        (match idx !! seq with Some _ => idx | None => <[seq := off]> idx end)
  end.

Definition add (self : t) (seq : list Z) : t * nat :=
  match index self !! seq with
  | Some off => (self, off)
  | None =>
      let off := length (table self) in
      ({| table := table self ++ seq;
          index := index_tails seq off (index self) |}, off)
  end.
End UniqueSeqTable.

(** ** The doc table: [defaultdict(list)] keyed by offsets *)

Definition doc_append (k : nat) (line : string)
    (doc_table : gmap nat (list string)) : gmap nat (list string) :=
  <[k := doc_table !!! k ++ [line]]> doc_table.

(** ['{:06x}'.format(n)]: lower-case hexadecimal, padded with zeros to at
    least six characters. *)
Fixpoint zeros (n : nat) : string :=
  match n with O => "" | S n' => "0" +:+ zeros n' end.

Definition format_06x (n : nat) : string :=
  let digits := NilZero.string_of_uint (Nat.to_hex_uint n) in
  zeros (6 - String.length digits) +:+ digits.

(** ** [EncList] *)

Module EncList.
Record t := {
  inst : Instruction;
  ty : option ValueType;
  encodings : list Encoding.t;
  offset : option nat
}.

Definition init (inst : Instruction) (ty : option ValueType) : t :=
  {| inst := inst; ty := ty; encodings := []; offset := None |}.

(** [name]: [if self.ty] asks for a type other than [None] and
    [if self.encodings] for a non-empty list. *)
Definition name (self : t) : string :=
  let name := inst_name (inst self) in
  let name :=
    match ty self with
    | Some ty => name +:+ "." +:+ ty_name ty
    | None => name
    end in
  match encodings self with
  | enc :: _ => name +:+ " (" +:+ Encoding.cpumode enc +:+ ")"
  | [] => name
  end.

(** The loop of [encode] over [self.encodings], from the accumulators
    [words] and [docs]. *)
Fixpoint encode_loop (encs : list Encoding.t)
    (words : list Z) (docs : list (nat * string))
  : result (list Z * list (nat * string)) :=
  match encs with
  | [] => Ok (words, docs)
  | enc :: rest =>
      '(seq, doc) ← seq_doc enc;
      encode_loop rest (extend words seq) (docs ++ [(length words, doc)])
  end.

(** The first half of [encode]: the words handed to the interner and
    the positioned doc lines. *)
Definition encode_words (self : t)
  : result (list Z * list (nat * string)) :=
  '(words, docs) ← encode_loop (encodings self) [] [];
  Ok (words ++ [CODE_FAIL], docs).

(** [self.offset = off] *)
Definition with_offset (self : t) (off : nat) : t :=
  {| inst := inst self; ty := ty self;
     encodings := encodings self; offset := Some off |}.

(** The loop [for pos, doc in docs] of [encode]. *)
Definition add_docs (off : nat) (docs : list (nat * string))
    (doc_table : gmap nat (list string)) : gmap nat (list string) :=
  fold_left (λ dt '(pos, doc), doc_append (off + pos) doc dt) docs doc_table.

Definition encode (self : t) (seq_table : UniqueSeqTable.t)
    (doc_table : gmap nat (list string))
  : result (t * UniqueSeqTable.t * gmap nat (list string)) :=
  '(words, docs) ← encode_words self;
  let '(seq_table, off) := UniqueSeqTable.add seq_table words in
  let self := with_offset self off in
  let doc_table :=
    doc_append off (format_06x off +:+ ": " +:+ name self) doc_table in
  Ok (self, seq_table, add_docs off docs doc_table).
End EncList.

(** ** Ordered dictionaries

    [OrderedDict] as an association list in insertion order: [od_get] is
    [d.get(k)], [od_set] is [d[k] = v], which replaces the value of a key
    that is present where it stands and appends a new key at the end. *)
Section ordered_dict.
Context {K V : Type} `{EqDecision K}.

Fixpoint od_get (k : K) (d : list (K * V)) : option V :=
  match d with
  | [] => None
  | (k', v) :: rest => if decide (k = k') then Some v else od_get k rest
  end.

Fixpoint od_set (k : K) (v : V) (d : list (K * V)) : list (K * V) :=
  match d with
  | [] => [(k, v)]
  | (k', v') :: rest =>
      if decide (k = k') then (k, v) :: rest else (k', v') :: od_set k v rest
  end.

Definition od_values (d : list (K * V)) : list V := d.*2.
End ordered_dict.

(** Visiting the values of an ordered dictionary in order with a fallible,
    state-passing action; the values are objects the action may update. *)
Fixpoint od_traverse {K V S} (f : V → S → result (V * S))
    (d : list (K * V)) (s : S) : result (list (K * V) * S) :=
  match d with
  | [] => Ok ([], s)
  | (k, v) :: rest =>
      '(v, s) ← f v s;
      '(rest, s) ← od_traverse f rest s;
      Ok ((k, v) :: rest, s)
  end.

(** ** [Level2Table] and [Level1Table] *)

Module Level2Table.
Record t := {
  ty : option ValueType;
  lists : list (Instruction * EncList.t)
}.

Definition init (ty : option ValueType) : t := {| ty := ty; lists := [] |}.

(** [__getitem__]: it hands back the table, which a missing key changes,
    and the list.  [if not ls] holds only of the [None] that [get] gives
    for a missing key: an [EncList] defines neither [__bool__] nor
    [__len__] and is always true. *)
Definition getitem (self : t) (inst : Instruction) : t * EncList.t :=
  match od_get inst (lists self) with
  | Some ls => (self, ls)
  | None =>
      let ls := EncList.init inst (ty self) in
      ({| ty := ty self; lists := od_set inst ls (lists self) |}, ls)
  end.

(** The list stored under [inst] after it was updated in place. *)
Definition update (self : t) (inst : Instruction) (ls : EncList.t) : t :=
  {| ty := ty self; lists := od_set inst ls (lists self) |}.

Definition iter (self : t) : list EncList.t := od_values (lists self).
End Level2Table.

Module Level1Table.
Record t := { tables : list (option ValueType * Level2Table.t) }.

Definition init : t := {| tables := [] |}.

(** [__getitem__], as for [Level2Table]: a [Level2Table] is always true
    as well.  The absent type [None] is a key like any other. *)
Definition getitem (self : t) (ty : option ValueType) : t * Level2Table.t :=
  match od_get ty (tables self) with
  | Some tbl => (self, tbl)
  | None =>
      let tbl := Level2Table.init ty in
      ({| tables := od_set ty tbl (tables self) |}, tbl)
  end.

(** The table stored under [ty] after it was updated in place. *)
Definition update (self : t) (ty : option ValueType) (tbl : Level2Table.t)
  : t :=
  {| tables := od_set ty tbl (tables self) |}.

Definition iter (self : t) : list Level2Table.t := od_values (tables self).
End Level1Table.

(** ** [make_tables] *)

(** [ls.encodings.append(enc)] *)
Definition append_encoding (ls : EncList.t) (enc : Encoding.t) : EncList.t :=
  {| EncList.inst := EncList.inst ls; EncList.ty := EncList.ty ls;
     EncList.encodings := EncList.encodings ls ++ [enc];
     EncList.offset := EncList.offset ls |}.

(** One round of the loop: [table[ty][inst].encodings.append(enc)].  The
    list and the level 2 table are the objects held by the tables, so the
    append shows through [table]. *)
Definition make_tables_step (table : Level1Table.t) (enc : Encoding.t)
  : Level1Table.t :=
  let ty := Encoding.ctrl_typevar enc in
  let inst := Encoding.inst enc in
  let '(table, tbl) := Level1Table.getitem table ty in
  let '(tbl, ls) := Level2Table.getitem tbl inst in
  let ls := append_encoding ls enc in
  Level1Table.update table ty (Level2Table.update tbl inst ls).

Definition make_tables (cpumode : CPUMode) : Level1Table.t :=
  fold_left make_tables_step (mode_encodings cpumode) Level1Table.init.

(** ** [encode_enclists]

    [encode] records the offset in the list it encodes, so the loops hand
    back the tables with their lists next to the interner and the doc
    table. *)

Definition encode_state : Type := UniqueSeqTable.t * gmap nat (list string).

Definition encode_enclist (enclist : EncList.t) (s : encode_state)
  : result (EncList.t * encode_state) :=
  '(enclist, seq_table, doc_table) ← EncList.encode enclist s.1 s.2;
  Ok (enclist, (seq_table, doc_table)).

Definition encode_level2 (level2 : Level2Table.t) (s : encode_state)
  : result (Level2Table.t * encode_state) :=
  '(lists, s) ← od_traverse encode_enclist (Level2Table.lists level2) s;
  Ok ({| Level2Table.ty := Level2Table.ty level2;
         Level2Table.lists := lists |}, s).

Definition encode_enclists (level1 : Level1Table.t) (s : encode_state)
  : result (Level1Table.t * encode_state) :=
  '(tables, s) ← od_traverse encode_level2 (Level1Table.tables level1) s;
  Ok ({| Level1Table.tables := tables |}, s).

(** ** The formatter

    [srcgen.Formatter] only receives text: its calls are recorded as a
    tree, [Indented before after body] standing for a
    [with fmt.indented(before, after)] block. *)
#[local] Unset Elimination Schemes.
Inductive fmt_call :=
  | Line (s : string)
  | Comment (s : string)
  | Indented (before after : string) (body : list fmt_call).
#[local] Set Elimination Schemes.

Definition quote : string := String (Ascii.ascii_of_nat 34) "".

(** [', '.join(...)] and [sorted(set(...))] on strings. *)
Fixpoint join (sep : string) (l : list string) : string :=
  match l with
  | [] => ""
  | [x] => x
  | x :: rest => x +:+ sep +:+ join sep rest
  end.

Fixpoint insert_sorted (x : string) (l : list string) : list string :=
  match l with
  | [] => [x]
  | y :: rest =>
      if String.ltb x y then x :: l
      else if String.eqb x y then l
      else y :: insert_sorted x rest
  end.

Definition sorted_set (l : list string) : list string :=
  foldr insert_sorted [] l.

(** ** The generated predicate dispatcher

    [emit_instp] and [emit_instps] write a Rust function.  The function
    is kept as a value, its match arms, of which [render_arm] and
    [render_check_instp] are the text the generator writes; [check_instp]
    runs it. *)
Module Rust.
(** One arm
    [number => { if let format { fields, .. } = *inst { return expr; } }]. *)
Record arm := {
  arm_number : Z;
  arm_format : string;
  arm_fields : string;
  arm_return : string
}.

Definition render_arm (a : arm) : fmt_call :=
  Indented (pretty (arm_number a) +:+ " => {") "}"
    [Indented ("if let " +:+ arm_format a +:+ " { " +:+ arm_fields a
               +:+ ", .. } = *inst {") "}"
       [Line ("return " +:+ arm_return a +:+ ";")]].

Definition render_check_instp (arms : list arm) : fmt_call :=
  Indented "fn check_instp(inst: &InstructionData, instp_idx: u16) -> bool {"
    "}"
    [Indented "match instp_idx {" "}"
       (map render_arm arms ++
        [Line ("_ => panic!(" +:+ quote +:+ "Invalid instruction predicate"
               +:+ quote +:+ ")")]);
     Line ("panic!(" +:+ quote +:+ "Bad format {}/{} for instp {}"
           +:+ quote +:+ ",");
     Line "       InstructionFormat::from(inst),";
     Line "       inst.opcode(),";
     Line "       instp_idx);"].

(** What the function sees of an instruction: the variant of
    [InstructionData] it is, as [InstructionFormat::from] names it, and
    its opcode. *)
Record InstructionData := { format : string; opcode : string }.

Inductive panic :=
  | InvalidInstructionPredicate
  | BadFormat (format opcode : string) (instp_idx : Z).

Inductive outcome :=
  | Return (b : bool)
  | Panic (p : panic).

Section run.
(** The value of a predicate expression on the fields the pattern
    binds. *)
Variable eval : string → InstructionData → bool.

(** The [match]: the first arm whose number is [instp_idx] is taken;
    its [if let] returns when the instruction is of the arm's format
    and otherwise falls out of the match ([None]); the [_] arm
    panics. *)
Fixpoint run_match (arms : list arm) (inst : InstructionData)
    (instp_idx : Z) : option outcome :=
  match arms with
  | [] => Some (Panic InvalidInstructionPredicate)
  | a :: rest =>
      if decide (instp_idx = arm_number a) then
        if decide (format inst = arm_format a)
        then Some (Return (eval (arm_return a) inst))
        else None
      else run_match rest inst instp_idx
  end.

Definition check_instp (arms : list arm) (inst : InstructionData)
    (instp_idx : Z) : outcome :=
  match run_match arms inst instp_idx with
  | Some o => o
  | None => Panic (BadFormat (format inst) (opcode inst) instp_idx)
  end.
End run.
End Rust.

(** ** [emit_instp] and [emit_instps] *)

Definition emit_instp (instp : Instp.t) : Rust.arm :=
  let iform := Instp.predicate_context instp in
  let fields :=
    if boxed_storage iform then "ref data"
    else join ", " (sorted_set (Instp.predicate_leafs instp)) in
  {| Rust.arm_number := Instp.number instp;
     Rust.arm_format := iform_name iform;
     Rust.arm_fields := fields;
     Rust.arm_return := Instp.rust_predicate instp |}.

Definition emit_instps (instps : list Instp.t) : list Rust.arm :=
  map emit_instp instps.

(** ** [emit_enclists] *)

(** ['{:#06x}'.format(entry)]: the sign, [0x], then lower-case hexadecimal
    digits padded with zeros to six characters in all. *)
Definition format_06x_alt (entry : Z) : string :=
  let digits := NilZero.string_of_uint (N.to_hex_uint (Z.abs_N entry)) in
  let prefix := (if bool_decide (entry < 0) then "-" else "") +:+ "0x" in
  prefix +:+ zeros (6 - String.length prefix - String.length digits)
         +:+ digits.

(** The loop over [enumerate(seq_table.table)], from the entry at [idx],
    the pending [line] and the calls made so far. *)
Fixpoint emit_entries (entries : list Z) (idx : nat)
    (doc_table : gmap nat (list string)) (line : string)
    (out : list fmt_call) : string * list fmt_call :=
  match entries with
  | [] => (line, out)
  | entry :: rest =>
      let '(line, out) :=
        match doc_table !! idx with
        | Some docs =>
            let '(line, out) :=
              if bool_decide (line ≠ "") then ("", out ++ [Line line])
              else (line, out) in
            (line, out ++ map Comment docs)
        | None => (line, out)
        end in
      emit_entries rest (S idx) doc_table
        (line +:+ format_06x_alt entry +:+ ", ") out
  end.

Definition emit_enclists (seq_table : UniqueSeqTable.t)
    (doc_table : gmap nat (list string)) : fmt_call :=
  let '(line, out) :=
    emit_entries (UniqueSeqTable.table seq_table) 0 doc_table "" [] in
  Indented
    ("const ENCLISTS: [u16; "
     +:+ pretty (length (UniqueSeqTable.table seq_table)) +:+ "] = [")
    "];"
    (if bool_decide (line ≠ "") then out ++ [Line line] else out).

(** ** [gen_isa] *)

(** The loop over [isa.cpumodes]; besides the state it hands back the
    tables of each mode as their lists were encoded. *)
Fixpoint gen_cpumodes (modes : list CPUMode) (s : encode_state)
  : result (list Level1Table.t * encode_state) :=
  match modes with
  | [] => Ok ([], s)
  | cpumode :: rest =>
      let level1 := make_tables cpumode in
      '(level1, s) ← encode_enclists level1 s;
      '(tables, s) ← gen_cpumodes rest s;
      Ok (level1 :: tables, s)
  end.

Definition gen_isa (isa : TargetISA) : result (list fmt_call) :=
  let instps := Rust.render_check_instp (emit_instps (all_instps isa)) in
  let seq_table := UniqueSeqTable.empty in
  let doc_table : gmap nat (list string) := ∅ in
  '(_, (seq_table, doc_table)) ←
    gen_cpumodes (cpumodes isa) (seq_table, doc_table);
  Ok [instps; emit_enclists seq_table doc_table].

(** ** Vocabulary of the statements *)

(** The predicate field of the triple of an encoding: the number of its
    instruction predicate, [CODE_ALWAYS] when it has none. *)
Definition pred_field (enc : Encoding.t) : Z :=
  match Encoding.instp enc with
  | Some instp => Instp.number instp
  | None => CODE_ALWAYS
  end.

(** The three words of an encoding: predicate field, recipe number,
    encoding bits. *)
Definition triple (enc : Encoding.t) : list Z :=
  [pred_field enc; Recipe.number (Encoding.recipe enc); Encoding.encbits enc].

(** The words of a list of encodings: their triples in order, then one
    [CODE_FAIL]. *)
Definition list_words (encs : list Encoding.t) : list Z :=
  flat_map triple encs ++ [CODE_FAIL].

(** The doc line of an encoding and the positioned doc lines of a list of
    encodings whose first triple stands at [pos]. *)
Definition doc_line (enc : Encoding.t) : string :=
  match Encoding.instp enc with
  | Some instp => "--> " +:+ Encoding.str enc +:+ " when " +:+ Instp.str instp
  | None => "--> " +:+ Encoding.str enc
  end.

Fixpoint doc_lines (pos : nat) (encs : list Encoding.t)
  : list (nat * string) :=
  match encs with
  | [] => []
  | enc :: rest => (pos, doc_line enc) :: doc_lines (pos + 3) rest
  end.

(** The assertion of [seq_doc] holds of every encoding of the list. *)
Definition accepted (encs : list Encoding.t) : Prop :=
  Forall (λ enc, pred_field enc ≤ CODE_ALWAYS) encs.

Global Instance accepted_dec encs : Decision (accepted encs).
Proof. unfold accepted. apply _. Defined.

(** [words] ends with [CODE_FAIL], which occurs nowhere before. *)
Definition fail_only_last (words : list Z) : Prop :=
  ∃ front, words = front ++ [CODE_FAIL] ∧ CODE_FAIL ∉ front.

(** The encodings of a CPU mode that [make_tables] files under the type
    [ty] and the opcode [inst], in the order of the mode. *)
Definition keyed (ty : option ValueType) (inst : Instruction)
    (enc : Encoding.t) : Prop :=
  Encoding.ctrl_typevar enc = ty ∧ Encoding.inst enc = inst.

Global Instance keyed_dec ty inst enc : Decision (keyed ty inst enc).
Proof. unfold keyed. apply _. Defined.

Definition group (ty : option ValueType) (inst : Instruction)
    (encs : list Encoding.t) : list Encoding.t :=
  filter (keyed ty inst) encs.

(** The level 2 table of the type of [enc] after the round of
    [make_tables] for [enc]. *)
Definition level2_step (tbl : Level2Table.t) (enc : Encoding.t)
  : Level2Table.t :=
  let '(tbl, ls) := Level2Table.getitem tbl (Encoding.inst enc) in
  Level2Table.update tbl (Encoding.inst enc) (append_encoding ls enc).

(** The invariant of the loop of [make_tables] once the encodings [encs]
    are filed: keys occur once, every list holds the encodings of its
    keys in order and is not empty, and keys are missing only where no
    encoding has them. *)
Definition enclist_ok (encs : list Encoding.t) (ty : option ValueType)
    (inst : Instruction) (ls : EncList.t) : Prop :=
  EncList.inst ls = inst ∧ EncList.ty ls = ty ∧ EncList.offset ls = None ∧
  EncList.encodings ls = group ty inst encs ∧ EncList.encodings ls ≠ [].

Definition level2_ok (encs : list Encoding.t) (ty : option ValueType)
    (tbl : Level2Table.t) : Prop :=
  Level2Table.ty tbl = ty ∧
  NoDup (Level2Table.lists tbl).*1 ∧
  (∀ inst ls, od_get inst (Level2Table.lists tbl) = Some ls →
     enclist_ok encs ty inst ls) ∧
  (∀ inst, od_get inst (Level2Table.lists tbl) = None →
     group ty inst encs = []).

Definition level1_ok (encs : list Encoding.t) (table : Level1Table.t)
  : Prop :=
  NoDup (Level1Table.tables table).*1 ∧
  (∀ ty tbl, od_get ty (Level1Table.tables table) = Some tbl →
     level2_ok encs ty tbl) ∧
  (∀ ty, od_get ty (Level1Table.tables table) = None →
     ∀ inst, group ty inst encs = []).

(** ** The lists of a pass *)

(** The lists of a level 1 table in the order [encode_enclists] visits
    them. *)
Definition all_enclists (level1 : Level1Table.t) : list EncList.t :=
  flat_map Level2Table.iter (Level1Table.iter level1).

(** The lists of the CPU modes of a pass, before they are encoded. *)
Definition mode_enclists (modes : list CPUMode) : list EncList.t :=
  flat_map (λ cpumode, all_enclists (make_tables cpumode)) modes.

(** The [encode] calls of a pass, one list after the other. *)
Fixpoint encode_list (lists : list EncList.t) (s : encode_state)
  : result (list EncList.t * encode_state) :=
  match lists with
  | [] => Ok ([], s)
  | enclist :: rest =>
      '(enclist, s) ← encode_enclist enclist s;
      '(rest, s) ← encode_list rest s;
      Ok (enclist :: rest, s)
  end.

(** The interner after the word sequences [seqs] were added in order. *)
Definition intern_all (seqs : list (list Z)) (seq_table : UniqueSeqTable.t)
  : UniqueSeqTable.t :=
  fold_left (λ st seq, (UniqueSeqTable.add st seq).1) seqs seq_table.

(** The lines that [encode] appends under the key [k] for a list whose
    words were put at the offset [off]: the name line under [off] and the
    doc line of the i-th encoding under [off + 3 * i]. *)
Definition name_line (ls : EncList.t) (off : nat) : string :=
  format_06x off +:+ ": " +:+ EncList.name ls.

Definition lines_at (ls : EncList.t) (off k : nat) : list string :=
  (if decide (k = off) then [name_line ls off] else []) ++
  (filter (λ '(pos, _), k = (off + pos)%nat)
     (doc_lines 0 (EncList.encodings ls))).*2.

Definition annotations (k : nat) (ls : EncList.t) : list string :=
  match EncList.offset ls with
  | Some off => lines_at ls off k
  | None => []
  end.

(** The interner remembers the words of [ls] at the offset [ls] records. *)
Definition recorded (seq_table : UniqueSeqTable.t) (ls : EncList.t) : Prop :=
  ∃ off, EncList.offset ls = Some off ∧
         UniqueSeqTable.index seq_table !! list_words (EncList.encodings ls)
           = Some off.

(** [seq] stands in [table] at the offset [off]; every sequence the
    index of an interner knows stands in its table at its offset. *)
Definition stored_at (table : list Z) (off : nat) (seq : list Z) : Prop :=
  take (length seq) (drop off table) = seq.

Definition index_sound (seq_table : UniqueSeqTable.t) : Prop :=
  ∀ seq off, UniqueSeqTable.index seq_table !! seq = Some off →
             stored_at (UniqueSeqTable.table seq_table) off seq.

(** The text of the array that a list of formatter calls writes: its
    lines without the comments; and the text of a list of words as
    [emit_enclists] formats them. *)
Definition line_text (c : fmt_call) : string :=
  match c with Line s => s | _ => "" end.

Definition array_text (calls : list fmt_call) : string :=
  foldr (λ c text, line_text c +:+ text) "" calls.

Definition indented_body (c : fmt_call) : list fmt_call :=
  match c with Indented _ _ body => body | _ => [] end.

Definition words_text (entries : list Z) : string :=
  foldr (λ entry text, format_06x_alt entry +:+ ", " +:+ text) "" entries.

(** ** A sample instruction set

    One type, two opcodes, one instruction predicate and two CPU modes
    with the same encodings for [iadd.i32]; used to run the definitions
    on concrete inputs. *)
Module Sample.
Definition i32 : ValueType := {| ty_name := "i32" |}.
Definition iadd : Instruction := {| inst_name := "iadd" |}.
Definition jump : Instruction := {| inst_name := "jump" |}.
Definition Binary : InstructionFormat :=
  {| iform_name := "Binary"; boxed_storage := false |}.

(** A predicate on the field [imm] with the given number. *)
Definition is_zero (number : Z) : Instp.t :=
  {| Instp.number := number; Instp.predicate_context := Binary;
     Instp.predicate_leafs := ["imm"];
     Instp.rust_predicate := "imm == 0"; Instp.str := "IsZero(imm)" |}.

Definition P1 : Instp.t := is_zero 3.

Definition enc (cpumode : string) (inst : Instruction)
    (ty : option ValueType) (recipe bits : Z) (instp : option Instp.t)
  : Encoding.t :=
  {| Encoding.cpumode := cpumode; Encoding.inst := inst;
     Encoding.ctrl_typevar := ty;
     Encoding.recipe := {| Recipe.number := recipe; Recipe.name := "R" |};
     Encoding.encbits := bits; Encoding.instp := instp;
     Encoding.str := "[R]" |}.

Definition e1 (cpumode : string) : Encoding.t :=
  enc cpumode iadd (Some i32) 5 1 (Some P1).
Definition e2 (cpumode : string) : Encoding.t :=
  enc cpumode iadd (Some i32) 7 2 None.
Definition e3 (cpumode : string) : Encoding.t :=
  enc cpumode jump None 9 4 None.

Definition RV32 : CPUMode :=
  {| mode_name := "RV32";
     mode_encodings := [e1 "RV32"; e3 "RV32"; e2 "RV32"] |}.
Definition RV64 : CPUMode :=
  {| mode_name := "RV64"; mode_encodings := [e1 "RV64"; e2 "RV64"] |}.

Definition isa : TargetISA :=
  {| isa_name := "riscv"; all_instps := [P1]; cpumodes := [RV32; RV64] |}.

Definition enclist (encs : list Encoding.t) : EncList.t :=
  {| EncList.inst := iadd; EncList.ty := Some i32;
     EncList.encodings := encs; EncList.offset := None |}.

(** The list of the round-trip example. *)
Definition two : EncList.t := enclist [e1 "RV32"; e2 "RV32"].

(** The tables of [RV32]. *)
Definition RV32_i32 : Level2Table.t :=
  {| Level2Table.ty := Some i32; Level2Table.lists := [(iadd, two)] |}.
Definition RV32_jump : EncList.t :=
  {| EncList.inst := jump; EncList.ty := None;
     EncList.encodings := [e3 "RV32"]; EncList.offset := None |}.
Definition RV32_no_type : Level2Table.t :=
  {| Level2Table.ty := None; Level2Table.lists := [(jump, RV32_jump)] |}.

(** The tables of the two modes after the pass, with the interner and
    the doc table it leaves. *)
Definition encoded : list Level1Table.t * encode_state :=
  match gen_cpumodes (cpumodes isa) (UniqueSeqTable.empty, ∅) with
  | Ok r => r
  | AssertionError => ([], (UniqueSeqTable.empty, ∅))
  end.

(** The list of [iadd.i32] of a mode once it is encoded at offset 0. *)
Definition two_encoded (cpumode : string) : EncList.t :=
  {| EncList.inst := iadd; EncList.ty := Some i32;
     EncList.encodings := [e1 cpumode; e2 cpumode];
     EncList.offset := Some 0%nat |}.

(** A list whose only encoding has 65535 as its encoding bits. *)
Definition bits_FAIL : EncList.t :=
  enclist [enc "RV32" iadd (Some i32) 7 65535 None].

(** A list whose only encoding carries a predicate with the given
    number, and the list of the same encoding without a predicate. *)
Definition numbered (number : Z) : EncList.t :=
  enclist [enc "RV32" iadd (Some i32) 5 1 (Some (is_zero number))].
Definition unconditional : EncList.t :=
  enclist [enc "RV32" iadd (Some i32) 5 1 None].
End Sample.

(** * Further vocabulary *)

(** The distinct elements of a list in the order of their first
    occurrence. *)
Definition first_occurrences {A} `{EqDecision A} (l : list A) : list A :=
  fold_left (λ seen x, if decide (x ∈ seen) then seen else seen ++ [x]) l [].

(** The encodings filed in a level 1 table, list after list. *)
Definition filed (table : Level1Table.t) : list Encoding.t :=
  flat_map EncList.encodings (all_enclists table).

(** The encodings with the controlling type [ty]. *)
Definition of_type (ty : option ValueType) (encs : list Encoding.t)
  : list Encoding.t :=
  filter (λ enc, Encoding.ctrl_typevar enc = ty) encs.

(** The order of the keys of the tables once the encodings [encs] are
    filed: types and, under each type, opcodes stand in the order in
    which they first occur. *)
Definition keys_ordered (encs : list Encoding.t) (table : Level1Table.t)
  : Prop :=
  (Level1Table.tables table).*1 =
    first_occurrences (map Encoding.ctrl_typevar encs) ∧
  ∀ ty tbl, od_get ty (Level1Table.tables table) = Some tbl →
    (Level2Table.lists tbl).*1 =
      first_occurrences (map Encoding.inst (of_type ty encs)).

(** Reading a list back, as the comments on the codes describe the
    format: [CODE_FAIL] in the place of a predicate ends the list, a
    code up to [CODE_ALWAYS] is followed by a recipe number and encoding
    bits.  Codes between the two announce an ISA predicate, which the
    builder never writes: reading gives up on them, as on a list that
    ends early. *)
Fixpoint read_list (words : list Z) : option (list (Z * Z * Z)) :=
  match words with
  | [] => None
  | p :: rest =>
      if decide (p = CODE_FAIL) then Some []
      else if decide (p ≤ CODE_ALWAYS) then
        match rest with
        | r :: b :: rest => ((p, r, b) ::.) <$> read_list rest
        | _ => None
        end
      else None
  end.

(** The tuple that [seq_doc] gives for an encoding it accepts. *)
Definition seq_of (enc : Encoding.t) : Z * Z * Z :=
  (pred_field enc, Recipe.number (Encoding.recipe enc), Encoding.encbits enc).

(** A list as [encode] leaves it: the same but for the offset. *)
Definition encoded_as (ls ls' : EncList.t) : Prop :=
  ∃ off, ls' = EncList.with_offset ls off.

(** Tables as [encode_enclists] leaves them: the same keys in the same
    order, and under them the same tables and lists but for the offsets
    of the lists. *)
Definition level2_encoded_as (tbl tbl' : Level2Table.t) : Prop :=
  Level2Table.ty tbl' = Level2Table.ty tbl ∧
  Forall2 (λ kv kv', kv'.1 = kv.1 ∧ encoded_as kv.2 kv'.2)
    (Level2Table.lists tbl) (Level2Table.lists tbl').

Definition level1_encoded_as (level1 level1' : Level1Table.t) : Prop :=
  Forall2 (λ kv kv', kv'.1 = kv.1 ∧ level2_encoded_as kv.2 kv'.2)
    (Level1Table.tables level1) (Level1Table.tables level1').

(** The comments among a list of formatter calls, in order. *)
Definition comments (calls : list fmt_call) : list string :=
  flat_map (λ c, match c with Comment s => [s] | _ => [] end) calls.

(** What [emit_enclists] may write inside the array: a comment or a line
    that is not empty. *)
Definition written (c : fmt_call) : Prop :=
  match c with
  | Line s => s ≠ ""
  | Comment _ => True
  | Indented _ _ _ => False
  end.

(** A list of strings in strictly ascending order. *)
Fixpoint ascending (l : list string) : Prop :=
  match l with
  | [] => True
  | x :: rest => Forall (λ y, String.ltb x y = true) rest ∧ ascending rest
  end.

(** ** More of the sample instruction set *)
Module Sample2.
(** The tables of [RV32] as [encode_enclists] leaves them from an empty
    interner and an empty doc table, with that state. *)
Definition RV32_encoded : Level1Table.t * encode_state :=
  match encode_enclists (make_tables Sample.RV32) (UniqueSeqTable.empty, ∅)
  with
  | Ok r => r
  | AssertionError => (Level1Table.init, (UniqueSeqTable.empty, ∅))
  end.

(** A predicate on two fields of a format without boxed storage. *)
Definition in_range : Instp.t :=
  {| Instp.number := 4; Instp.predicate_context := Sample.Binary;
     Instp.predicate_leafs := ["imm"; "cond"; "imm"];
     Instp.rust_predicate := "cond == 0 && imm < 8";
     Instp.str := "InRange(cond, imm)" |}.
End Sample2.

(** The list of the round-trip example as [encode] leaves it from an
    empty interner and an empty doc table, with that interner and doc
    table. *)
Definition two_encoded_alone
  : EncList.t * UniqueSeqTable.t * gmap nat (list string) :=
  match EncList.encode Sample.two UniqueSeqTable.empty ∅ with
  | Ok r => r
  | AssertionError => (Sample.two, UniqueSeqTable.empty, ∅)
  end.

(** * Properties *)

(** ** The codes *)

Lemma CODE_ALWAYS_eq : CODE_ALWAYS = 4095.
Proof. reflexivity. Qed.

Lemma CODE_FAIL_eq : CODE_FAIL = 65535.
Proof. reflexivity. Qed.

(** ** [seq_doc] *)

Lemma seq_doc_Ok enc :
  pred_field enc ≤ CODE_ALWAYS →
  seq_doc enc =
    Ok ((pred_field enc, Recipe.number (Encoding.recipe enc),
         Encoding.encbits enc), doc_line enc).
Proof.
  intros Hp. unfold seq_doc, pred_field, doc_line in *.
  destruct (Encoding.instp enc); rewrite bool_decide_eq_true_2; done.
Qed.

Lemma seq_doc_inv enc seq doc :
  seq_doc enc = Ok (seq, doc) →
  pred_field enc ≤ CODE_ALWAYS ∧
  seq = (pred_field enc, Recipe.number (Encoding.recipe enc),
         Encoding.encbits enc) ∧
  doc = doc_line enc.
Proof.
  unfold seq_doc, pred_field, doc_line.
  destruct (Encoding.instp enc); case_bool_decide; naive_solver.
Qed.

Lemma seq_doc_Error enc :
  CODE_ALWAYS < pred_field enc → seq_doc enc = AssertionError.
Proof.
  intros Hp. unfold seq_doc, pred_field in *.
  destruct (Encoding.instp enc); rewrite bool_decide_eq_false_2; (done || lia).
Qed.

(** ** The words of [EncList.encode] *)

Lemma encode_loop_Ok encs : ∀ words docs,
  accepted encs →
  EncList.encode_loop encs words docs =
    Ok (words ++ flat_map triple encs, docs ++ doc_lines (length words) encs).
Proof.
  induction encs as [|enc encs IH]; intros words docs Hall; simpl.
  - by rewrite !app_nil_r.
  - inversion_clear Hall as [|?? Hp Hrest].
    rewrite (seq_doc_Ok _ Hp). simpl.
    rewrite (IH _ _ Hrest). rewrite length_app. simpl.
    by rewrite <- !app_assoc.
Qed.

Lemma encode_loop_inv encs : ∀ words docs words' docs',
  EncList.encode_loop encs words docs = Ok (words', docs') →
  accepted encs.
Proof.
  induction encs as [|enc encs IH]; intros words docs words' docs' H.
  - constructor.
  - simpl in H. destruct (seq_doc enc) as [[seq doc]|] eqn:Hseq; [|done].
    simpl in H. apply seq_doc_inv in Hseq as [Hp _].
    apply Forall_cons. split; [done|]. by eapply IH.
Qed.

Lemma encode_words_Ok self :
  accepted (EncList.encodings self) →
  EncList.encode_words self =
    Ok (list_words (EncList.encodings self),
        doc_lines 0 (EncList.encodings self)).
Proof.
  intros Hall. unfold EncList.encode_words.
  by rewrite (encode_loop_Ok _ [] [] Hall).
Qed.

Lemma encode_words_inv self words docs :
  EncList.encode_words self = Ok (words, docs) →
  accepted (EncList.encodings self) ∧
  words = list_words (EncList.encodings self) ∧
  docs = doc_lines 0 (EncList.encodings self).
Proof.
  intros H. assert (accepted (EncList.encodings self)) as Hall.
  { unfold EncList.encode_words in H.
    destruct (EncList.encode_loop _ _ _) as [[w d]|] eqn:Hloop; [|done].
    by eapply encode_loop_inv. }
  rewrite (encode_words_Ok _ Hall) in H. naive_solver.
Qed.

Lemma encode_Ok self seq_table doc_table :
  accepted (EncList.encodings self) →
  let words := list_words (EncList.encodings self) in
  let off := (UniqueSeqTable.add seq_table words).2 in
  EncList.encode self seq_table doc_table =
    Ok (EncList.with_offset self off,
        (UniqueSeqTable.add seq_table words).1,
        EncList.add_docs off (doc_lines 0 (EncList.encodings self))
          (doc_append off
             (format_06x off +:+ ": " +:+ EncList.name self) doc_table)).
Proof.
  intros Hall words off. unfold EncList.encode.
  rewrite (encode_words_Ok _ Hall). simpl.
  fold words. subst off. by destruct (UniqueSeqTable.add seq_table words).
Qed.

Lemma encode_inv self seq_table doc_table r :
  EncList.encode self seq_table doc_table = Ok r →
  accepted (EncList.encodings self).
Proof.
  unfold EncList.encode. intros H.
  destruct (EncList.encode_words self) as [[w d]|] eqn:Hw; [|done].
  by apply encode_words_inv in Hw as [? _].
Qed.

Lemma list_words_lookup_pred encs : ∀ i enc,
  encs !! i = Some enc →
  list_words encs !! (3 * i)%nat = Some (pred_field enc).
Proof.
  unfold list_words.
  induction encs as [|e encs IH]; intros i enc Hi; [done|].
  destruct i as [|i]; simpl in *.
  - by simplify_eq.
  - replace (i + S (i + S (i + 0)))%nat with (S (S (3 * i)))%nat by lia.
    simpl. by apply IH.
Qed.

Lemma list_words_last encs : last (list_words encs) = Some CODE_FAIL.
Proof. unfold list_words. by rewrite last_snoc. Qed.

Lemma accepted_lookup encs i enc :
  accepted encs → encs !! i = Some enc → pred_field enc ≤ CODE_ALWAYS.
Proof. intros Hall Hi. by eapply (Forall_lookup_1 _ _ _ _ Hall Hi). Qed.

Lemma encode_words_Error self :
  ¬ accepted (EncList.encodings self) →
  EncList.encode_words self = AssertionError.
Proof.
  intros Hnot. destruct (EncList.encode_words self) as [[w d]|] eqn:H; [|done].
  by apply encode_words_inv in H as [? _].
Qed.

Lemma encode_Error self seq_table doc_table :
  ¬ accepted (EncList.encodings self) →
  EncList.encode self seq_table doc_table = AssertionError.
Proof.
  intros Hnot. unfold EncList.encode. by rewrite encode_words_Error.
Qed.

(** C1.  [EncList.encode] fails when the assertion of [seq_doc] fails
    for one of its encodings, and otherwise builds exactly these words
    and hands them to the interner: for each encoding in order its
    predicate field (the predicate number, or [CODE_ALWAYS] = 4095
    without a predicate), its recipe number and its encoding bits, then
    a single [CODE_FAIL] = 65535.  For the two encodings (P1, 5, 1) and
    (none, 7, 2) the words are [P1.number; 5; 1; 4095; 7; 2; 65535]. *)
Theorem encode_words_are_triples_then_FAIL
    (self : EncList.t) (seq_table : UniqueSeqTable.t)
    (doc_table : gmap nat (list string)) :
  let encs := EncList.encodings self in
  let words := flat_map triple encs ++ [CODE_FAIL] in
  (CODE_ALWAYS = 4095 ∧ CODE_FAIL = 65535) ∧
  EncList.encode_words self =
    (if decide (accepted encs) then Ok (words, doc_lines 0 encs)
     else AssertionError) ∧
  (accepted encs →
   ∃ doc_table',
     EncList.encode self seq_table doc_table =
       Ok (EncList.with_offset self (UniqueSeqTable.add seq_table words).2,
           (UniqueSeqTable.add seq_table words).1, doc_table')) ∧
  (¬ accepted encs →
   EncList.encode self seq_table doc_table = AssertionError) ∧
  (∀ e1 e2 p1,
     encs = [e1; e2] →
     Encoding.instp e1 = Some p1 → Instp.number p1 ≤ CODE_ALWAYS →
     Recipe.number (Encoding.recipe e1) = 5 → Encoding.encbits e1 = 1 →
     Encoding.instp e2 = None →
     Recipe.number (Encoding.recipe e2) = 7 → Encoding.encbits e2 = 2 →
     EncList.encode_words self =
       Ok ([Instp.number p1; 5; 1; 4095; 7; 2; 65535], doc_lines 0 encs)).
Proof.
  intros encs words. split; [done|]. split; [|split; [|split]].
  - destruct (decide (accepted encs)) as [Hall|Hnot].
    + by apply encode_words_Ok.
    + by apply encode_words_Error.
  - intros Hall. eexists. by apply encode_Ok.
  - apply encode_Error.
  - intros e1 e2 p1 Hencs Hp1 Hle Hr1 Hb1 Hp2 Hr2 Hb2.
    assert (accepted encs) as Hall.
    { rewrite Hencs. repeat constructor; unfold pred_field.
      - by rewrite Hp1.
      - by rewrite Hp2. }
    rewrite (encode_words_Ok _ Hall). fold encs. rewrite Hencs.
    unfold list_words. simpl. unfold pred_field.
    by rewrite Hp1, Hp2, Hr1, Hb1, Hr2, Hb2.
Qed.

Lemma encode_words_are_triples_then_FAIL_witness :
  EncList.encode_words Sample.two =
    Ok ([3; 5; 1; 4095; 7; 2; 65535],
        doc_lines 0 (EncList.encodings Sample.two)).
Proof.
  apply (proj2 (proj2 (proj2 (proj2
           (encode_words_are_triples_then_FAIL
              Sample.two UniqueSeqTable.empty ∅))))
           (Sample.e1 "RV32") (Sample.e2 "RV32") Sample.P1);
    try reflexivity.
  by vm_compute.
Defined.

(** C2.  [seq_doc] asserts [p <= CODE_ALWAYS]: a predicate numbered 4094
    is encoded as itself and one numbered 4096 is refused, but one
    numbered 4095 = [CODE_ALWAYS] passes the assertion and its list gets
    the very words of the list of the same encoding without predicate. *)
Theorem seq_doc_accepts_predicate_numbered_ALWAYS :
  EncList.encode_words (Sample.numbered 4094) =
    Ok ([4094; 5; 1; 65535], [(0%nat, "--> [R] when IsZero(imm)")]) ∧
  EncList.encode_words (Sample.numbered 4096) = AssertionError ∧
  EncList.encode_words (Sample.numbered 4095) =
    Ok ([4095; 5; 1; 65535], [(0%nat, "--> [R] when IsZero(imm)")]) ∧
  EncList.encode_words Sample.unconditional =
    Ok ([4095; 5; 1; 65535], [(0%nat, "--> [R]")]).
Proof. repeat split; reflexivity. Qed.

(** C3, as the code has it.  The words of an encoded list end with
    [CODE_FAIL] = 65535 and no predicate field holds 65535; when moreover
    no encoding of the list has 65535 as its recipe number or as its
    encoding bits, which the builder does not check, 65535 occurs nowhere
    before that last word. *)
Theorem encode_words_FAIL_only_last (self : EncList.t) words docs :
  EncList.encode_words self = Ok (words, docs) →
  CODE_FAIL = 65535 ∧
  last words = Some CODE_FAIL ∧
  (∀ i enc, EncList.encodings self !! i = Some enc →
     words !! (3 * i)%nat = Some (pred_field enc) ∧
     pred_field enc ≠ CODE_FAIL) ∧
  (Forall (λ enc, Recipe.number (Encoding.recipe enc) ≠ CODE_FAIL ∧
                  Encoding.encbits enc ≠ CODE_FAIL) (EncList.encodings self) →
   fail_only_last words).
Proof.
  intros H. apply encode_words_inv in H as (Hall & -> & _).
  split; [done|]. split; [apply list_words_last|]. split.
  - intros i enc Hi. split; [by apply list_words_lookup_pred|].
    pose proof (accepted_lookup _ _ _ Hall Hi) as Hp.
    rewrite CODE_ALWAYS_eq in Hp. rewrite CODE_FAIL_eq. lia.
  - intros Hrb. exists (flat_map triple (EncList.encodings self)).
    split; [done|].
    induction (EncList.encodings self) as [|enc encs IH]; simpl.
    + by apply not_elem_of_nil.
    + inversion_clear Hall as [|?? Hp Hall'].
      inversion_clear Hrb as [|?? [Hr Hb] Hrb'].
      rewrite CODE_ALWAYS_eq in Hp.
      rewrite !not_elem_of_cons. repeat split; try done.
      * rewrite CODE_FAIL_eq. lia.
      * by apply IH.
Qed.

Lemma encode_words_FAIL_only_last_witness :
  fail_only_last [3; 5; 1; 4095; 7; 2; 65535].
Proof.
  refine (proj2 (proj2 (proj2 (encode_words_FAIL_only_last Sample.two
    [3; 5; 1; 4095; 7; 2; 65535]
    (doc_lines 0 (EncList.encodings Sample.two)) _))) _).
  - reflexivity.
  - repeat constructor; by vm_compute.
Defined.

(** C3 as stated fails: encoding bits 65535 put a second 65535 before the
    end marker. *)
Lemma encode_words_FAIL_inside :
  EncList.encode_words Sample.bits_FAIL =
    Ok ([4095; 7; 65535; 65535], [(0%nat, "--> [R]")]) ∧
  ¬ fail_only_last [4095; 7; 65535; 65535].
Proof.
  split; [reflexivity|]. intros (front & Heq & Hnot).
  change [4095; 7; 65535; 65535] with ([4095; 7; 65535] ++ [65535]) in Heq.
  apply app_inj_tail in Heq as [<- _].
  apply Hnot. rewrite CODE_FAIL_eq. set_solver.
Qed.

(** C8.  In the words of an encoded list the first word of every triple
    is at most [CODE_ALWAYS] = 4095: none lies in 4096..65534, the codes
    of an ISA predicate with a skip count. *)
Theorem encode_words_no_skip_entry (self : EncList.t) words docs :
  EncList.encode_words self = Ok (words, docs) →
  ∀ i, (i < length (EncList.encodings self))%nat →
  ∃ p, words !! (3 * i)%nat = Some p ∧
       p ≤ CODE_ALWAYS ∧ p ≤ 4095 ∧ ¬ (4096 ≤ p ≤ 65534).
Proof.
  intros H i Hi. apply encode_words_inv in H as (Hall & -> & _).
  apply lookup_lt_is_Some_2 in Hi as [enc Hi].
  exists (pred_field enc). split; [by apply list_words_lookup_pred|].
  pose proof (accepted_lookup _ _ _ Hall Hi) as Hp.
  split; [done|]. rewrite CODE_ALWAYS_eq in Hp. lia.
Qed.

Lemma encode_words_no_skip_entry_witness :
  ∃ p, ([3; 5; 1; 4095; 7; 2; 65535] : list Z) !! (3 * 1)%nat = Some p ∧
       p ≤ CODE_ALWAYS ∧ p ≤ 4095 ∧ ¬ (4096 ≤ p ≤ 65534).
Proof.
  refine (encode_words_no_skip_entry Sample.two
    [3; 5; 1; 4095; 7; 2; 65535]
    (doc_lines 0 (EncList.encodings Sample.two)) _ 1%nat _).
  - reflexivity.
  - simpl. lia.
Defined.

(** ** Ordered dictionaries *)

Section ordered_dict_facts.
Context {K V : Type} `{EqDecision K}.
Implicit Types (k : K) (v : V) (d : list (K * V)).

Lemma od_get_set k k' v d :
  od_get k' (od_set k v d) = if decide (k' = k) then Some v else od_get k' d.
Proof.
  induction d as [|[k0 v0] d IH]; simpl.
  - by destruct (decide (k' = k)).
  - destruct (decide (k = k0)) as [->|Hne]; simpl.
    + by destruct (decide (k' = k0)).
    + destruct (decide (k' = k0)) as [->|?].
      * by rewrite decide_False by done.
      * done.
Qed.

Lemma od_set_keys k v d k' :
  k' ∈ (od_set k v d).*1 ↔ k' = k ∨ k' ∈ d.*1.
Proof.
  induction d as [|[k0 v0] d IH]; simpl.
  - rewrite list_elem_of_singleton, elem_of_nil. naive_solver.
  - destruct (decide (k = k0)) as [->|Hne]; simpl;
      rewrite ?elem_of_cons, ?IH; naive_solver.
Qed.

Lemma od_set_NoDup k v d : NoDup d.*1 → NoDup (od_set k v d).*1.
Proof.
  induction d as [|[k0 v0] d IH]; simpl; intros Hnd.
  - repeat constructor. set_solver.
  - apply NoDup_cons in Hnd as [Hk0 Hnd].
    destruct (decide (k = k0)) as [->|Hne]; simpl.
    + by apply NoDup_cons.
    + apply NoDup_cons. split; [|by apply IH].
      rewrite od_set_keys. naive_solver.
Qed.

Lemma od_get_Some_elem_of k v d : od_get k d = Some v → (k, v) ∈ d.
Proof.
  induction d as [|[k0 v0] d IH]; simpl; [done|].
  destruct (decide (k = k0)) as [->|?]; intros ?; simplify_eq; set_solver.
Qed.

Lemma elem_of_od_get k v d : NoDup d.*1 → (k, v) ∈ d → od_get k d = Some v.
Proof.
  induction d as [|[k0 v0] d IH]; simpl; intros Hnd Hin.
  - by apply elem_of_nil in Hin.
  - apply NoDup_cons in Hnd as [Hk0 Hnd].
    apply elem_of_cons in Hin as [Heq|Hin].
    + simplify_eq. by rewrite decide_True.
    + destruct (decide (k = k0)) as [->|?]; [|by apply IH].
      exfalso. apply Hk0. apply list_elem_of_fmap. by exists (k0, v).
Qed.
End ordered_dict_facts.

(** ** [make_tables] *)

Lemma group_snoc ty inst encs enc :
  group ty inst (encs ++ [enc]) =
    group ty inst encs ++ (if decide (keyed ty inst enc) then [enc] else []).
Proof.
  unfold group. by rewrite filter_app.
Qed.

Lemma group_snoc_other ty inst encs enc :
  ¬ keyed ty inst enc → group ty inst (encs ++ [enc]) = group ty inst encs.
Proof.
  intros Hk. rewrite group_snoc, decide_False by done. by rewrite app_nil_r.
Qed.

Lemma group_snoc_keyed encs enc :
  group (Encoding.ctrl_typevar enc) (Encoding.inst enc) (encs ++ [enc]) =
    group (Encoding.ctrl_typevar enc) (Encoding.inst enc) encs ++ [enc].
Proof. rewrite group_snoc, decide_True; done. Qed.

Lemma make_tables_step_unfold table enc :
  make_tables_step table enc =
    let '(table, tbl) :=
      Level1Table.getitem table (Encoding.ctrl_typevar enc) in
    Level1Table.update table (Encoding.ctrl_typevar enc) (level2_step tbl enc).
Proof.
  unfold make_tables_step, level2_step.
  destruct (Level1Table.getitem _ _) as [t tbl].
  by destruct (Level2Table.getitem _ _).
Qed.

Lemma level2_ok_init encs ty :
  (∀ inst, group ty inst encs = []) → level2_ok encs ty (Level2Table.init ty).
Proof.
  intros Hnone. split; [done|]. split; [constructor|]. split; [done|].
  intros inst _. apply Hnone.
Qed.

Lemma level2_ok_other encs ty tbl enc :
  Encoding.ctrl_typevar enc ≠ ty →
  level2_ok encs ty tbl → level2_ok (encs ++ [enc]) ty tbl.
Proof.
  intros Hty (Hty' & Hnd & Hsome & Hnone).
  assert (∀ inst, group ty inst (encs ++ [enc]) = group ty inst encs) as Hg.
  { intros inst. apply group_snoc_other. by intros [? _]. }
  split; [done|]. split; [done|]. split.
  - intros inst ls Hls. destruct (Hsome _ _ Hls) as (?&?&?&?&?).
    unfold enclist_ok. by rewrite Hg.
  - intros inst Hi. rewrite Hg. by apply Hnone.
Qed.

Lemma level2_step_lookup tbl enc inst :
  od_get inst (Level2Table.lists (level2_step tbl enc)) =
    if decide (inst = Encoding.inst enc)
    then Some (append_encoding
                 (default (EncList.init (Encoding.inst enc) (Level2Table.ty tbl))
                    (od_get (Encoding.inst enc) (Level2Table.lists tbl))) enc)
    else od_get inst (Level2Table.lists tbl).
Proof.
  unfold level2_step, Level2Table.getitem.
  destruct (od_get (Encoding.inst enc) (Level2Table.lists tbl)) as [ls|] eqn:Hget;
    simpl; rewrite ?od_get_set; repeat case_decide; done.
Qed.

Lemma level2_step_ty tbl enc :
  Level2Table.ty (level2_step tbl enc) = Level2Table.ty tbl.
Proof.
  unfold level2_step, Level2Table.getitem.
  by destruct (od_get _ _).
Qed.

Lemma level2_step_NoDup tbl enc :
  NoDup (Level2Table.lists tbl).*1 →
  NoDup (Level2Table.lists (level2_step tbl enc)).*1.
Proof.
  intros Hnd. unfold level2_step, Level2Table.getitem.
  destruct (od_get _ _); simpl; auto using od_set_NoDup.
Qed.

Lemma level2_ok_step encs tbl enc :
  level2_ok encs (Encoding.ctrl_typevar enc) tbl →
  level2_ok (encs ++ [enc]) (Encoding.ctrl_typevar enc) (level2_step tbl enc).
Proof.
  intros (Hty & Hnd & Hsome & Hnone).
  split; [by rewrite level2_step_ty|].
  split; [by apply level2_step_NoDup|]. split.
  - intros inst ls. rewrite level2_step_lookup.
    destruct (decide (inst = Encoding.inst enc)) as [->|Hne]; intros Hls.
    + simplify_eq. unfold enclist_ok. rewrite group_snoc_keyed.
      destruct (od_get _ _) as [ls|] eqn:Hget; simpl.
      * destruct (Hsome _ _ Hget) as (?&?&?&Hencs&?).
        rewrite Hencs. repeat split; try done. by destruct (group _ _ _).
      * rewrite (Hnone _ Hget). by rewrite Hty.
    + destruct (Hsome _ _ Hls) as (?&?&?&Hencs&?).
      unfold enclist_ok. rewrite group_snoc_other; [done|].
      intros [_ ?]. done.
  - intros inst. rewrite level2_step_lookup.
    destruct (decide (inst = Encoding.inst enc)) as [->|Hne]; [done|].
    intros Hi. rewrite group_snoc_other; [by apply Hnone|].
    intros [_ ?]. done.
Qed.

Lemma make_tables_step_lookup table enc ty :
  od_get ty (Level1Table.tables (make_tables_step table enc)) =
    if decide (ty = Encoding.ctrl_typevar enc)
    then Some (level2_step
                 (default (Level2Table.init (Encoding.ctrl_typevar enc))
                    (od_get (Encoding.ctrl_typevar enc)
                       (Level1Table.tables table))) enc)
    else od_get ty (Level1Table.tables table).
Proof.
  rewrite make_tables_step_unfold. unfold Level1Table.getitem.
  destruct (od_get (Encoding.ctrl_typevar enc) (Level1Table.tables table));
    simpl; rewrite ?od_get_set; repeat case_decide; done.
Qed.

Lemma make_tables_step_NoDup table enc :
  NoDup (Level1Table.tables table).*1 →
  NoDup (Level1Table.tables (make_tables_step table enc)).*1.
Proof.
  intros Hnd. rewrite make_tables_step_unfold. unfold Level1Table.getitem.
  destruct (od_get _ _); simpl; auto using od_set_NoDup.
Qed.

Lemma level1_ok_step encs table enc :
  level1_ok encs table → level1_ok (encs ++ [enc]) (make_tables_step table enc).
Proof.
  intros (Hnd & Hsome & Hnone).
  split; [by apply make_tables_step_NoDup|]. split.
  - intros ty tbl. rewrite make_tables_step_lookup.
    destruct (decide (ty = Encoding.ctrl_typevar enc)) as [->|Hne];
      intros Hget.
    + simplify_eq. apply level2_ok_step.
      destruct (od_get _ _) as [tbl|] eqn:Hty; simpl.
      * by apply Hsome.
      * apply level2_ok_init. by apply Hnone.
    + apply level2_ok_other; [done|]. by apply Hsome.
  - intros ty. rewrite make_tables_step_lookup.
    destruct (decide (ty = Encoding.ctrl_typevar enc)) as [->|Hne]; [done|].
    intros Hget inst. rewrite group_snoc_other; [by apply Hnone|].
    intros [? _]. done.
Qed.

Lemma level1_ok_init : level1_ok [] Level1Table.init.
Proof. split; [constructor|]. split; done. Qed.

Lemma fold_left_make_tables_ok encs' : ∀ encs table,
  level1_ok encs table →
  level1_ok (encs ++ encs') (fold_left make_tables_step encs' table).
Proof.
  induction encs' as [|enc encs' IH]; intros encs table Hok; simpl.
  - by rewrite app_nil_r.
  - replace (encs ++ enc :: encs') with ((encs ++ [enc]) ++ encs')
      by (by rewrite <- app_assoc).
    apply IH. by apply level1_ok_step.
Qed.

Lemma make_tables_ok cpumode :
  level1_ok (mode_encodings cpumode) (make_tables cpumode).
Proof. apply (fold_left_make_tables_ok _ [] _ level1_ok_init). Qed.

Lemma make_tables_enclist cpumode ty tbl inst ls :
  (ty, tbl) ∈ Level1Table.tables (make_tables cpumode) →
  (inst, ls) ∈ Level2Table.lists tbl →
  enclist_ok (mode_encodings cpumode) ty inst ls.
Proof.
  intros Htbl Hls.
  destruct (make_tables_ok cpumode) as (Hnd & Hsome & _).
  apply (elem_of_od_get _ _ _ Hnd) in Htbl.
  destruct (Hsome _ _ Htbl) as (_ & Hnd2 & Hsome2 & _).
  apply (elem_of_od_get _ _ _ Hnd2) in Hls. by apply Hsome2.
Qed.

Lemma getitem1_again table ty :
  Level1Table.getitem (Level1Table.getitem table ty).1 ty =
    Level1Table.getitem table ty.
Proof.
  unfold Level1Table.getitem.
  destruct (od_get ty (Level1Table.tables table)) as [tbl|] eqn:Hget; simpl.
  - by rewrite Hget.
  - by rewrite od_get_set, decide_True.
Qed.

Lemma getitem2_again tbl inst :
  Level2Table.getitem (Level2Table.getitem tbl inst).1 inst =
    Level2Table.getitem tbl inst.
Proof.
  unfold Level2Table.getitem.
  destruct (od_get inst (Level2Table.lists tbl)) as [ls|] eqn:Hget; simpl.
  - by rewrite Hget.
  - by rewrite od_get_set, decide_True.
Qed.

(** C4.  [make_tables] and [EncList.encode] do not sort: the list filed
    under a type and an opcode holds exactly the encodings of the CPU mode
    with that type and opcode, in the order of the mode, and its words
    are their triples in that order, then [CODE_FAIL]. *)
Theorem make_tables_keeps_order cpumode ty tbl inst ls :
  (ty, tbl) ∈ Level1Table.tables (make_tables cpumode) →
  (inst, ls) ∈ Level2Table.lists tbl →
  EncList.encodings ls = filter (keyed ty inst) (mode_encodings cpumode) ∧
  EncList.encodings ls `sublist_of` mode_encodings cpumode ∧
  (accepted (EncList.encodings ls) →
   EncList.encode_words ls =
     Ok (flat_map triple (filter (keyed ty inst) (mode_encodings cpumode))
           ++ [CODE_FAIL],
         doc_lines 0 (EncList.encodings ls))).
Proof.
  intros Htbl Hls.
  destruct (make_tables_enclist _ _ _ _ _ Htbl Hls) as (_&_&_&Hencs&_).
  split; [done|]. split.
  - rewrite Hencs. apply sublist_filter.
  - intros Hall. rewrite (encode_words_Ok _ Hall). unfold list_words.
    by rewrite Hencs.
Qed.

Lemma make_tables_keeps_order_witness :
  EncList.encodings Sample.two =
    filter (keyed (Some Sample.i32) Sample.iadd)
      (mode_encodings Sample.RV32) ∧
  EncList.encodings Sample.two `sublist_of` mode_encodings Sample.RV32 ∧
  (accepted (EncList.encodings Sample.two) →
   EncList.encode_words Sample.two =
     Ok (flat_map triple
           (filter (keyed (Some Sample.i32) Sample.iadd)
              (mode_encodings Sample.RV32)) ++ [CODE_FAIL],
         doc_lines 0 (EncList.encodings Sample.two))).
Proof.
  apply (make_tables_keeps_order Sample.RV32 (Some Sample.i32)
           Sample.RV32_i32 Sample.iadd Sample.two).
  - apply list_elem_of_In. vm_compute. left. reflexivity.
  - apply list_elem_of_In. vm_compute. left. reflexivity.
Defined.



(** C9.  Every list in the tables of a CPU mode holds at least one
    encoding. *)
Theorem make_tables_lists_nonempty cpumode ty tbl inst ls :
  (ty, tbl) ∈ Level1Table.tables (make_tables cpumode) →
  (inst, ls) ∈ Level2Table.lists tbl →
  EncList.encodings ls ≠ [] ∧ (0 < length (EncList.encodings ls))%nat.
Proof.
  intros Htbl Hls.
  destruct (make_tables_enclist _ _ _ _ _ Htbl Hls) as (_&_&_&_&Hne).
  split; [done|]. destruct (EncList.encodings ls); [done|simpl; lia].
Qed.

Lemma make_tables_lists_nonempty_witness :
  EncList.encodings Sample.RV32_jump ≠ [] ∧
  (0 < length (EncList.encodings Sample.RV32_jump))%nat.
Proof.
  apply (make_tables_lists_nonempty Sample.RV32 None Sample.RV32_no_type
           Sample.jump Sample.RV32_jump).
  - apply list_elem_of_In. vm_compute. right. left. reflexivity.
  - apply list_elem_of_In. vm_compute. left. reflexivity.
Defined.

(** ** The interner *)

Lemma index_tails_mono seq : ∀ off idx,
  idx ⊆ UniqueSeqTable.index_tails seq off idx.
Proof.
  induction seq as [|x seq IH]; intros off idx; simpl; [done|].
  etrans; [|apply IH].
  destruct (idx !! (x :: seq)) eqn:Hx; [done|]. by apply insert_subseteq.
Qed.

Lemma index_tails_lookup seq off idx :
  seq ≠ [] → idx !! seq = None →
  UniqueSeqTable.index_tails seq off idx !! seq = Some off.
Proof.
  destruct seq as [|x seq]; [done|]. intros _ Hnone. simpl. rewrite Hnone.
  eapply lookup_weaken; [|apply index_tails_mono]. apply lookup_insert_eq.
Qed.

Lemma add_index_mono seq_table seq :
  UniqueSeqTable.index seq_table ⊆
    UniqueSeqTable.index (UniqueSeqTable.add seq_table seq).1.
Proof.
  unfold UniqueSeqTable.add.
  destruct (UniqueSeqTable.index seq_table !! seq); simpl; [done|].
  apply index_tails_mono.
Qed.

Lemma add_index_lookup seq_table seq :
  seq ≠ [] →
  UniqueSeqTable.index (UniqueSeqTable.add seq_table seq).1 !! seq =
    Some (UniqueSeqTable.add seq_table seq).2.
Proof.
  intros Hne. unfold UniqueSeqTable.add.
  destruct (UniqueSeqTable.index seq_table !! seq) eqn:Hseq; simpl; [done|].
  by apply index_tails_lookup.
Qed.

Lemma add_again seq_table seq :
  seq ≠ [] →
  UniqueSeqTable.add (UniqueSeqTable.add seq_table seq).1 seq =
    UniqueSeqTable.add seq_table seq.
Proof.
  intros Hne. pose proof (add_index_lookup seq_table seq Hne) as Hl.
  destruct (UniqueSeqTable.add seq_table seq) as [st off] eqn:Hadd.
  simpl in *. unfold UniqueSeqTable.add at 1. by rewrite Hl.
Qed.

Lemma list_words_nonempty encs : list_words encs ≠ [].
Proof. unfold list_words. by destruct (flat_map triple encs). Qed.

Lemma recorded_mono st st' ls :
  UniqueSeqTable.index st ⊆ UniqueSeqTable.index st' →
  recorded st ls → recorded st' ls.
Proof.
  intros Hsub (off & Hoff & Hidx). exists off. split; [done|].
  by eapply lookup_weaken.
Qed.

Lemma stored_at_app table more off seq :
  stored_at table off seq → stored_at (table ++ more) off seq.
Proof.
  unfold stored_at. intros H.
  assert (length seq ≤ length (drop off table))%nat as Hlen.
  { apply (f_equal length) in H. rewrite length_take in H. lia. }
  rewrite drop_app. by rewrite take_app_le.
Qed.

Lemma stored_at_tail table front seq :
  stored_at (table ++ front ++ seq) (length table + length front) seq.
Proof.
  unfold stored_at. rewrite app_assoc, drop_app_length'.
  - by rewrite firstn_all.
  - by rewrite length_app.
Qed.

Lemma index_tails_sound seq : ∀ table front idx,
  (∀ s o, idx !! s = Some o → stored_at (table ++ front ++ seq) o s) →
  ∀ s o,
    UniqueSeqTable.index_tails seq (length table + length front) idx !! s
      = Some o →
    stored_at (table ++ front ++ seq) o s.
Proof.
  induction seq as [|x seq IH]; intros table front idx Hidx s o; simpl.
  - apply Hidx.
  - replace (S (length table + length front))
      with (length table + length (front ++ [x]))%nat
      by (rewrite length_app; simpl; lia).
    replace (front ++ x :: seq) with ((front ++ [x]) ++ seq)
      by (by rewrite <- app_assoc).
    apply IH. intros s' o'. rewrite <- app_assoc. simpl.
    destruct (idx !! (x :: seq)) eqn:Hx; [apply Hidx|].
    rewrite lookup_insert. case_decide as Heq; [|apply Hidx].
    intros ?; simplify_eq. apply stored_at_tail.
Qed.

Lemma index_sound_empty : index_sound UniqueSeqTable.empty.
Proof. intros seq off. simpl. by rewrite lookup_empty. Qed.

Lemma add_index_sound seq_table seq :
  index_sound seq_table → index_sound (UniqueSeqTable.add seq_table seq).1.
Proof.
  intros Hsound. unfold UniqueSeqTable.add.
  destruct (UniqueSeqTable.index seq_table !! seq) eqn:Hseq; simpl; [done|].
  intros s o Hs. simpl in *.
  apply (index_tails_sound seq (UniqueSeqTable.table seq_table) []
           (UniqueSeqTable.index seq_table)).
  - intros s' o' Hs'. simpl. by apply stored_at_app, Hsound.
  - simpl. by rewrite Nat.add_0_r.
Qed.

Lemma add_stored seq_table seq :
  index_sound seq_table → seq ≠ [] →
  stored_at (UniqueSeqTable.table (UniqueSeqTable.add seq_table seq).1)
    (UniqueSeqTable.add seq_table seq).2 seq.
Proof.
  intros Hsound Hne. apply (add_index_sound _ seq Hsound).
  by apply add_index_lookup.
Qed.


(** ** The [encode] calls of a pass *)

Lemma encode_enclist_Ok ls s :
  accepted (EncList.encodings ls) →
  let words := list_words (EncList.encodings ls) in
  let off := (UniqueSeqTable.add s.1 words).2 in
  encode_enclist ls s =
    Ok (EncList.with_offset ls off,
        ((UniqueSeqTable.add s.1 words).1,
         EncList.add_docs off (doc_lines 0 (EncList.encodings ls))
           (doc_append off (name_line ls off) s.2))).
Proof.
  intros Hall words off. unfold encode_enclist.
  by rewrite (encode_Ok _ _ _ Hall).
Qed.

Lemma encode_enclist_inv ls s r :
  encode_enclist ls s = Ok r → accepted (EncList.encodings ls).
Proof.
  unfold encode_enclist. intros H.
  destruct (EncList.encode ls s.1 s.2) as [r'|] eqn:Henc; [|done].
  by eapply encode_inv.
Qed.

Lemma encode_list_app l1 l2 s :
  encode_list (l1 ++ l2) s =
    '(l1', s1) ← encode_list l1 s;
    '(l2', s2) ← encode_list l2 s1;
    Ok (l1' ++ l2', s2).
Proof.
  revert s. induction l1 as [|ls l1 IH]; intros s; simpl.
  - by destruct (encode_list l2 s) as [[??]|].
  - destruct (encode_enclist ls s) as [[ls' s1]|]; simpl; [|done].
    rewrite IH. destruct (encode_list l1 s1) as [[l1' s2]|]; simpl; [|done].
    by destruct (encode_list l2 s2) as [[??]|].
Qed.

Lemma od_traverse_enclist_flat {K} (d : list (K * EncList.t)) : ∀ s,
  encode_list d.*2 s =
    '(d', s') ← od_traverse encode_enclist d s; Ok (d'.*2, s').
Proof.
  induction d as [|[k ls] d IH]; intros s; simpl; [done|].
  destruct (encode_enclist ls s) as [[ls' s1]|]; simpl; [|done].
  rewrite IH. by destruct (od_traverse encode_enclist d s1) as [[??]|].
Qed.

Lemma encode_level2_flat level2 s :
  encode_list (Level2Table.iter level2) s =
    '(level2', s') ← encode_level2 level2 s;
    Ok (Level2Table.iter level2', s').
Proof.
  unfold encode_level2, Level2Table.iter, od_values.
  rewrite od_traverse_enclist_flat.
  by destruct (od_traverse encode_enclist _ s) as [[??]|].
Qed.

Lemma od_traverse_level2_flat {K} (d : list (K * Level2Table.t)) : ∀ s,
  encode_list (flat_map Level2Table.iter d.*2) s =
    '(d', s') ← od_traverse encode_level2 d s;
    Ok (flat_map Level2Table.iter d'.*2, s').
Proof.
  induction d as [|[k tbl] d IH]; intros s; simpl; [done|].
  rewrite encode_list_app, encode_level2_flat.
  destruct (encode_level2 tbl s) as [[tbl' s1]|]; simpl; [|done].
  rewrite IH. by destruct (od_traverse encode_level2 d s1) as [[??]|].
Qed.

Lemma encode_enclists_flat level1 s :
  encode_list (all_enclists level1) s =
    '(level1', s') ← encode_enclists level1 s;
    Ok (all_enclists level1', s').
Proof.
  unfold encode_enclists, all_enclists, Level1Table.iter, od_values.
  rewrite od_traverse_level2_flat.
  by destruct (od_traverse encode_level2 _ s) as [[??]|].
Qed.

Lemma gen_cpumodes_flat modes s :
  encode_list (mode_enclists modes) s =
    '(tables, s') ← gen_cpumodes modes s;
    Ok (flat_map all_enclists tables, s').
Proof.
  unfold mode_enclists.
  revert s. induction modes as [|cpumode modes IH]; intros s; simpl; [done|].
  rewrite encode_list_app, encode_enclists_flat.
  destruct (encode_enclists (make_tables cpumode) s) as [[level1 s1]|];
    simpl; [|done].
  rewrite IH. by destruct (gen_cpumodes modes s1) as [[??]|].
Qed.

(** What a pass over [lists] leaves: the lists with their offsets, the
    interner and the doc table. *)
Lemma encode_list_Ok lists : ∀ s,
  Forall (λ ls, accepted (EncList.encodings ls)) lists →
  ∃ lists' s', encode_list lists s = Ok (lists', s').
Proof.
  induction lists as [|ls lists IH]; intros s Hall; simpl; [by eauto|].
  apply Forall_cons in Hall as [Hls Hall].
  rewrite (encode_enclist_Ok _ s Hls). simpl.
  match goal with
  | |- context [encode_list lists ?s1] =>
      destruct (IH s1 Hall) as (lists' & s' & ->)
  end.
  simpl. eauto.
Qed.

Lemma encode_list_cons_inv ls lists s lists' s' :
  encode_list (ls :: lists) s = Ok (lists', s') →
  accepted (EncList.encodings ls) ∧
  ∃ rest,
    let words := list_words (EncList.encodings ls) in
    let off := (UniqueSeqTable.add s.1 words).2 in
    lists' = EncList.with_offset ls off :: rest ∧
    encode_list lists
      ((UniqueSeqTable.add s.1 words).1,
       EncList.add_docs off (doc_lines 0 (EncList.encodings ls))
         (doc_append off (name_line ls off) s.2)) = Ok (rest, s').
Proof.
  simpl. intros H.
  destruct (encode_enclist ls s) as [[ls' s1]|] eqn:Hls; [|done].
  pose proof (encode_enclist_inv _ _ _ Hls) as Hall. split; [done|].
  rewrite (encode_enclist_Ok _ _ Hall) in Hls. simplify_eq. simpl in H.
  destruct (encode_list lists _) as [[rest s2]|] eqn:Hrest; [|done].
  simpl in H. simplify_eq. by exists rest.
Qed.

Lemma encode_list_index_mono lists : ∀ s lists' s',
  encode_list lists s = Ok (lists', s') →
  UniqueSeqTable.index s.1 ⊆ UniqueSeqTable.index s'.1.
Proof.
  induction lists as [|ls lists IH]; intros s lists' s' H.
  - simpl in H. by simplify_eq.
  - apply encode_list_cons_inv in H as (_ & rest & _ & Hrest).
    apply IH in Hrest. simpl in Hrest.
    etrans; [apply add_index_mono|done].
Qed.

Lemma encode_list_recorded lists : ∀ s lists' s',
  encode_list lists s = Ok (lists', s') →
  Forall (recorded s'.1) lists'.
Proof.
  induction lists as [|ls lists IH]; intros s lists' s' H.
  - simpl in H. simplify_eq. constructor.
  - apply encode_list_cons_inv in H as (_ & rest & -> & Hrest).
    constructor; [|by eapply IH].
    eapply recorded_mono; [by eapply encode_list_index_mono|]. simpl.
    eexists. split; [done|]. simpl.
    apply add_index_lookup, list_words_nonempty.
Qed.

Lemma encode_list_interns lists : ∀ s lists' s',
  encode_list lists s = Ok (lists', s') →
  s'.1 = intern_all (map (λ ls, list_words (EncList.encodings ls)) lists) s.1.
Proof.
  induction lists as [|ls lists IH]; intros s lists' s' H.
  - simpl in H. by simplify_eq.
  - apply encode_list_cons_inv in H as (_ & rest & _ & Hrest).
    by apply IH in Hrest.
Qed.

Lemma encode_list_index_sound lists : ∀ s lists' s',
  encode_list lists s = Ok (lists', s') →
  index_sound s.1 → index_sound s'.1.
Proof.
  induction lists as [|ls lists IH]; intros s lists' s' H Hsound.
  - simpl in H. by simplify_eq.
  - apply encode_list_cons_inv in H as (_ & rest & _ & Hrest).
    apply IH in Hrest; [done|]. simpl. by apply add_index_sound.
Qed.

(** ** The doc table *)

Lemma doc_append_lookup k line (dt : gmap nat (list string)) k' :
  doc_append k line dt !!! k' =
    dt !!! k' ++ (if decide (k' = k) then [line] else []).
Proof.
  unfold doc_append. destruct (decide (k' = k)) as [->|Hne].
  - by rewrite lookup_total_insert_eq.
  - rewrite lookup_total_insert_ne by done. by rewrite app_nil_r.
Qed.

Lemma add_docs_lookup off docs : ∀ (dt : gmap nat (list string)) k,
  EncList.add_docs off docs dt !!! k =
    dt !!! k ++ (filter (λ '(pos, _), k = (off + pos)%nat) docs).*2.
Proof.
  unfold EncList.add_docs.
  induction docs as [|[pos doc] docs IH]; intros dt k; simpl.
  - by rewrite app_nil_r.
  - rewrite IH, doc_append_lookup, filter_cons.
    destruct (decide (k = (off + pos)%nat)); simpl.
    + by rewrite <- app_assoc.
    + by rewrite app_nil_r.
Qed.

Lemma encode_list_docs lists : ∀ s lists' s',
  encode_list lists s = Ok (lists', s') →
  ∀ k, s'.2 !!! k = s.2 !!! k ++ flat_map (annotations k) lists'.
Proof.
  induction lists as [|ls lists IH]; intros s lists' s' H k.
  - simpl in H. simplify_eq. simpl. by rewrite app_nil_r.
  - apply encode_list_cons_inv in H as (_ & rest & -> & Hrest).
    rewrite (IH _ _ _ Hrest k). simpl.
    rewrite add_docs_lookup, doc_append_lookup.
    unfold annotations at 2. simpl. unfold lines_at.
    by rewrite <- !app_assoc.
Qed.

Lemma doc_lines_lookup encs : ∀ pos i enc,
  encs !! i = Some enc →
  ((pos + 3 * i)%nat, doc_line enc) ∈ doc_lines pos encs.
Proof.
  induction encs as [|e encs IH]; intros pos i enc Hi; [done|].
  destruct i as [|i]; simpl in *.
  - simplify_eq. replace (pos + 0)%nat with pos by lia. apply list_elem_of_here.
  - apply list_elem_of_further.
    replace (pos + (S (i + S (i + S (i + 0)))))%nat
      with ((pos + 3) + 3 * i)%nat by lia.
    by apply IH.
Qed.

Lemma lines_at_name ls off : name_line ls off ∈ lines_at ls off off.
Proof. unfold lines_at. rewrite decide_True by done. set_solver. Qed.

Lemma lines_at_doc ls off i enc :
  EncList.encodings ls !! i = Some enc →
  doc_line enc ∈ lines_at ls off (off + 3 * i).
Proof.
  intros Hi. unfold lines_at. apply elem_of_app. right.
  apply list_elem_of_fmap. exists ((3 * i)%nat, doc_line enc). split; [done|].
  apply list_elem_of_filter. split; [done|].
  by apply (doc_lines_lookup _ 0%nat).
Qed.

(** ** The emitted array *)

Lemma string_app_assoc (a b c : string) : (a +:+ b) +:+ c = a +:+ (b +:+ c).
Proof.
  induction a as [|x a IH]; [done|].
  change (String x ((a +:+ b) +:+ c) = String x (a +:+ (b +:+ c))).
  by rewrite IH.
Qed.

Lemma string_app_nil_r (a : string) : a +:+ "" = a.
Proof.
  induction a as [|x a IH]; [done|].
  change (String x (a +:+ "") = String x a). by rewrite IH.
Qed.

Lemma array_text_app out out' :
  array_text (out ++ out') = array_text out +:+ array_text out'.
Proof.
  induction out as [|c out IH]; [done|].
  change (array_text ((c :: out) ++ out'))
    with (line_text c +:+ array_text (out ++ out')).
  change (array_text (c :: out)) with (line_text c +:+ array_text out).
  by rewrite IH, string_app_assoc.
Qed.

Lemma array_text_comments docs : array_text (map Comment docs) = "".
Proof. induction docs as [|d docs IH]; simpl; done. Qed.

Lemma emit_entries_text doc_table entries : ∀ idx line out,
  array_text (emit_entries entries idx doc_table line out).2
    +:+ (emit_entries entries idx doc_table line out).1 =
  array_text out +:+ line +:+ words_text entries.
Proof.
  induction entries as [|entry entries IH]; intros idx line out; simpl.
  - by rewrite string_app_nil_r.
  - destruct (doc_table !! idx) as [docs|]; [case_bool_decide|]; rewrite IH.
    + rewrite !array_text_app, array_text_comments. simpl.
      by rewrite !string_app_nil_r, !string_app_assoc.
    + rewrite !array_text_app, array_text_comments.
      by rewrite !string_app_nil_r, !string_app_assoc.
    + by rewrite !string_app_assoc.
Qed.

Lemma emit_enclists_text seq_table doc_table :
  array_text (indented_body (emit_enclists seq_table doc_table)) =
    words_text (UniqueSeqTable.table seq_table).
Proof.
  unfold emit_enclists.
  pose proof (emit_entries_text doc_table (UniqueSeqTable.table seq_table)
                0 "" []) as H.
  destruct (emit_entries _ _ _ _ _) as [line out]. simpl in *.
  case_bool_decide as Hline.
  - rewrite array_text_app. simpl. by rewrite string_app_nil_r.
  - assert (line = "") as -> by (by destruct (decide (line = ""))).
    by rewrite string_app_nil_r in H.
Qed.

Lemma elem_of_all_enclists_make_tables cpumode ls :
  ls ∈ all_enclists (make_tables cpumode) →
  ∃ ty inst, enclist_ok (mode_encodings cpumode) ty inst ls.
Proof.
  unfold all_enclists, Level1Table.iter, Level2Table.iter, od_values.
  rewrite list_elem_of_In, in_flat_map. intros (tbl & Htbl & Hls).
  apply list_elem_of_In, list_elem_of_fmap in Htbl as ([ty tbl'] & -> & Htbl).
  apply list_elem_of_In, list_elem_of_fmap in Hls as ([inst ls'] & -> & Hls).
  exists ty, inst. by eapply make_tables_enclist.
Qed.

Lemma mode_enclists_accepted modes :
  Forall (λ cpumode, accepted (mode_encodings cpumode)) modes →
  Forall (λ ls, accepted (EncList.encodings ls)) (mode_enclists modes).
Proof.
  intros Hall. apply Forall_forall. intros ls.
  unfold mode_enclists. rewrite list_elem_of_In, in_flat_map.
  intros (cpumode & Hmode & Hls).
  apply list_elem_of_In in Hmode, Hls.
  apply elem_of_all_enclists_make_tables in Hls as (ty & inst & Hok).
  destruct Hok as (_&_&_&Hencs&_). rewrite Hencs.
  rewrite Forall_forall in Hall. specialize (Hall _ Hmode).
  unfold accepted, group in *. rewrite Forall_forall in *.
  intros enc Henc. apply Hall. by apply list_elem_of_filter in Henc as [_ ?].
Qed.

Lemma gen_cpumodes_encode_list modes s tables s' :
  gen_cpumodes modes s = Ok (tables, s') →
  encode_list (mode_enclists modes) s = Ok (flat_map all_enclists tables, s').
Proof. intros H. by rewrite gen_cpumodes_flat, H. Qed.

Lemma gen_cpumodes_Ok modes s :
  Forall (λ cpumode, accepted (mode_encodings cpumode)) modes →
  ∃ tables s', gen_cpumodes modes s = Ok (tables, s').
Proof.
  intros Hall. apply mode_enclists_accepted in Hall.
  destruct (encode_list_Ok _ s Hall) as (lists' & s' & H).
  rewrite gen_cpumodes_flat in H.
  destruct (gen_cpumodes modes s) as [[tables s'']|]; [eauto|done].
Qed.

Lemma list_words_triples encs encs' :
  map triple encs = map triple encs' → list_words encs = list_words encs'.
Proof.
  intros H. unfold list_words. by rewrite !flat_map_concat_map, H.
Qed.





(** ** The generated dispatcher *)

Section check_instp.
Variable eval : string → Rust.InstructionData → bool.

Lemma run_match_unregistered instps inst idx :
  idx ∉ map Instp.number instps →
  Rust.run_match eval (emit_instps instps) inst idx =
    Some (Rust.Panic Rust.InvalidInstructionPredicate).
Proof.
  induction instps as [|p instps IH]; intros Hidx; simpl; [done|].
  simpl in Hidx. apply not_elem_of_cons in Hidx as [Hne Hidx].
  rewrite decide_False by done. by apply IH.
Qed.

Lemma run_match_registered instps inst instp :
  NoDup (map Instp.number instps) → instp ∈ instps →
  Rust.run_match eval (emit_instps instps) inst (Instp.number instp) =
    if decide (Rust.format inst = iform_name (Instp.predicate_context instp))
    then Some (Rust.Return (eval (Instp.rust_predicate instp) inst))
    else None.
Proof.
  induction instps as [|p instps IH]; intros Hnd Hin; simpl.
  - by apply elem_of_nil in Hin.
  - simpl in Hnd. apply NoDup_cons in Hnd as [Hp Hnd].
    apply elem_of_cons in Hin as [->|Hin].
    + by rewrite decide_True.
    + rewrite decide_False; [by apply IH|].
      intros Heq. apply Hp. rewrite <- Heq.
      apply list_elem_of_In, in_map. by apply list_elem_of_In.
Qed.
End check_instp.



(** * Further properties *)

(** ** Ordered dictionaries, once more *)

Section ordered_dict_order.
Context {K V : Type} `{EqDecision K}.
Implicit Types (k : K) (v : V) (d : list (K * V)).

Lemma od_get_None_keys k d : od_get k d = None ↔ k ∉ d.*1.
Proof.
  induction d as [|[k0 v0] d IH]; simpl.
  - split; [intros _; apply not_elem_of_nil|done].
  - rewrite not_elem_of_cons. destruct (decide (k = k0)) as [->|?].
    + split; [done|]. by intros [? _].
    + rewrite IH. naive_solver.
Qed.

Lemma od_set_new k v d : od_get k d = None → od_set k v d = d ++ [(k, v)].
Proof.
  induction d as [|[k0 v0] d IH]; simpl; [done|].
  destruct (decide (k = k0)); [done|]. intros Hd. by rewrite IH.
Qed.

Lemma od_set_present k v v0 d :
  od_get k d = Some v0 →
  ∃ d1 d2, d = d1 ++ (k, v0) :: d2 ∧ od_set k v d = d1 ++ (k, v) :: d2 ∧
           k ∉ d1.*1.
Proof.
  induction d as [|[k1 v1] d IH]; simpl; [done|].
  destruct (decide (k = k1)) as [->|Hne]; intros Hd.
  - simplify_eq. exists [], d. split; [done|]. split; [done|].
    apply not_elem_of_nil.
  - destruct (IH Hd) as (d1 & d2 & -> & -> & Hk).
    exists ((k1, v1) :: d1), d2. split; [done|]. split; [done|].
    simpl. rewrite not_elem_of_cons. done.
Qed.

Lemma od_set_set k v v' d : od_set k v' (od_set k v d) = od_set k v' d.
Proof.
  induction d as [|[k0 v0] d IH]; simpl.
  - by rewrite decide_True.
  - destruct (decide (k = k0)) as [->|Hne]; simpl.
    + by rewrite decide_True.
    + rewrite decide_False by done. by rewrite IH.
Qed.

Lemma od_set_keys_order k v d :
  (od_set k v d).*1 = if decide (k ∈ d.*1) then d.*1 else d.*1 ++ [k].
Proof.
  destruct (od_get k d) as [v0|] eqn:Hget.
  - destruct (od_set_present k v v0 d Hget) as (d1 & d2 & Hd & -> & _).
    rewrite decide_True.
    + rewrite Hd. by rewrite !fmap_app.
    + rewrite Hd, fmap_app. simpl. set_solver.
  - rewrite (od_set_new _ _ _ Hget). apply od_get_None_keys in Hget.
    rewrite decide_False by done. by rewrite fmap_app.
Qed.
End ordered_dict_order.

Lemma level2_step_lists tbl enc :
  Level2Table.lists (level2_step tbl enc) =
    od_set (Encoding.inst enc)
      (append_encoding
         (default (EncList.init (Encoding.inst enc) (Level2Table.ty tbl))
            (od_get (Encoding.inst enc) (Level2Table.lists tbl))) enc)
      (Level2Table.lists tbl).
Proof.
  unfold level2_step, Level2Table.getitem.
  destruct (od_get (Encoding.inst enc) (Level2Table.lists tbl)); simpl; [done|].
  apply od_set_set.
Qed.

Lemma make_tables_step_tables table enc :
  Level1Table.tables (make_tables_step table enc) =
    od_set (Encoding.ctrl_typevar enc)
      (level2_step
         (default (Level2Table.init (Encoding.ctrl_typevar enc))
            (od_get (Encoding.ctrl_typevar enc) (Level1Table.tables table)))
         enc)
      (Level1Table.tables table).
Proof.
  rewrite make_tables_step_unfold. unfold Level1Table.getitem.
  destruct (od_get (Encoding.ctrl_typevar enc) (Level1Table.tables table));
    simpl; [done|].
  apply od_set_set.
Qed.

Lemma first_occurrences_snoc {A} `{EqDecision A} (l : list A) x :
  first_occurrences (l ++ [x]) =
    if decide (x ∈ first_occurrences l) then first_occurrences l
    else first_occurrences l ++ [x].
Proof. unfold first_occurrences. by rewrite fold_left_app. Qed.

Lemma elem_of_first_occurrences {A} `{EqDecision A} (l : list A) x :
  x ∈ first_occurrences l ↔ x ∈ l.
Proof.
  induction l as [|y l IH] using rev_ind.
  - done.
  - rewrite first_occurrences_snoc, elem_of_app, list_elem_of_singleton.
    destruct (decide (y ∈ first_occurrences l)) as [Hy|Hy].
    + rewrite IH. split; [by left|]. intros [?| ->]; [done|]. by apply IH.
    + rewrite elem_of_app, list_elem_of_singleton, IH. done.
Qed.

Lemma first_occurrences_NoDup {A} `{EqDecision A} (l : list A) :
  NoDup (first_occurrences l).
Proof.
  induction l as [|y l IH] using rev_ind.
  - constructor.
  - rewrite first_occurrences_snoc.
    destruct (decide (y ∈ first_occurrences l)) as [Hy|Hy]; [done|].
    apply NoDup_app. split; [done|]. split; [|apply NoDup_singleton].
    intros x Hx ->%list_elem_of_singleton. done.
Qed.

Lemma filter_none {A} (P : A → Prop) `{∀ x, Decision (P x)} (l : list A) :
  (∀ x, x ∈ l → ¬ P x) → filter P l = [].
Proof.
  induction l as [|y l IH]; intros Hl; [done|].
  rewrite filter_cons, decide_False; [|apply Hl; by left].
  apply IH. intros x Hx. apply Hl. by right.
Qed.

Lemma of_type_snoc ty encs enc :
  of_type ty (encs ++ [enc]) =
    of_type ty encs ++
      (if decide (Encoding.ctrl_typevar enc = ty) then [enc] else []).
Proof. unfold of_type. by rewrite filter_app. Qed.

Lemma keys_ordered_step encs table enc :
  keys_ordered encs table →
  keys_ordered (encs ++ [enc]) (make_tables_step table enc).
Proof.
  intros [Hkeys Hlists]. split.
  - rewrite make_tables_step_tables, od_set_keys_order, Hkeys.
    rewrite map_app. simpl. by rewrite first_occurrences_snoc.
  - intros ty tbl. rewrite make_tables_step_lookup, of_type_snoc.
    destruct (decide (ty = Encoding.ctrl_typevar enc)) as [->|Hne];
      intros Hget.
    + simplify_eq. rewrite decide_True by done.
      rewrite level2_step_lists, od_set_keys_order.
      rewrite map_app. simpl. rewrite first_occurrences_snoc.
      destruct (od_get (Encoding.ctrl_typevar enc) (Level1Table.tables table))
        as [tbl|] eqn:Hty; simpl.
      * by rewrite (Hlists _ _ Hty).
      * apply od_get_None_keys in Hty. rewrite Hkeys in Hty.
        rewrite elem_of_first_occurrences in Hty.
        assert (of_type (Encoding.ctrl_typevar enc) encs = []) as ->.
        { apply filter_none. intros e He Heq.
          apply Hty. rewrite <- Heq.
          apply list_elem_of_In, in_map. by apply list_elem_of_In. }
        done.
    + rewrite decide_False by done. rewrite app_nil_r. by apply Hlists.
Qed.

Lemma keys_ordered_fold encs' : ∀ encs table,
  keys_ordered encs table →
  keys_ordered (encs ++ encs') (fold_left make_tables_step encs' table).
Proof.
  induction encs' as [|enc encs' IH]; intros encs table Hok; simpl.
  - by rewrite app_nil_r.
  - replace (encs ++ enc :: encs') with ((encs ++ [enc]) ++ encs')
      by (by rewrite <- app_assoc).
    apply IH. by apply keys_ordered_step.
Qed.

(** X2.  [make_tables] keeps insertion order: the level 1 keys are the
    controlling types of the mode in the order of their first occurrence,
    and the keys of the level 2 table of a type are the opcodes of the
    encodings of that type in the order of their first occurrence. *)
Theorem make_tables_keys_in_first_occurrence_order (cpumode : CPUMode) :
  let encs := mode_encodings cpumode in
  let tables := Level1Table.tables (make_tables cpumode) in
  tables.*1 = first_occurrences (map Encoding.ctrl_typevar encs) ∧
  ∀ ty tbl, (ty, tbl) ∈ tables →
    (Level2Table.lists tbl).*1 =
      first_occurrences (map Encoding.inst (of_type ty encs)).
Proof.
  intros encs tables.
  assert (keys_ordered encs (make_tables cpumode)) as [Hkeys Hlists].
  { apply (keys_ordered_fold encs [] Level1Table.init). split; done. }
  split; [done|]. intros ty tbl Hin. apply Hlists.
  apply elem_of_od_get; [|done]. rewrite Hkeys.
  apply first_occurrences_NoDup.
Qed.

(** ** [make_tables] files every encoding once *)

Lemma flat_map_flat_map {A B C} (f : A → list B) (g : B → list C) l :
  flat_map g (flat_map f l) = flat_map (λ x, flat_map g (f x)) l.
Proof.
  induction l as [|x l IH]; simpl; [done|]. by rewrite flat_map_app, IH.
Qed.

Lemma od_set_flat_map {K V B} `{EqDecision K} (g : V → list B)
    (k : K) (v v0 : V) (d : list (K * V)) (extra : list B) :
  g v0 = [] →
  g v ≡ₚ g (default v0 (od_get k d)) ++ extra →
  flat_map g (od_set k v d).*2 ≡ₚ flat_map g d.*2 ++ extra.
Proof.
  intros Hv0 Hv. destruct (od_get k d) as [v1|] eqn:Hget; simpl in Hv.
  - destruct (od_set_present k v v1 d Hget) as (d1 & d2 & -> & -> & _).
    rewrite !fmap_app, !flat_map_app. simpl. rewrite Hv.
    rewrite <- !app_assoc. apply Permutation_app_head.
    apply Permutation_app_head. apply Permutation_app_comm.
  - rewrite (od_set_new _ _ _ Hget), fmap_app, flat_map_app. simpl.
    rewrite Hv, Hv0, app_nil_r. done.
Qed.

Lemma level2_step_filed tbl enc :
  flat_map EncList.encodings (Level2Table.iter (level2_step tbl enc)) ≡ₚ
    flat_map EncList.encodings (Level2Table.iter tbl) ++ [enc].
Proof.
  unfold Level2Table.iter, od_values. rewrite level2_step_lists.
  apply (od_set_flat_map EncList.encodings _ _
           (EncList.init (Encoding.inst enc) (Level2Table.ty tbl))); done.
Qed.

Lemma make_tables_step_filed table enc :
  filed (make_tables_step table enc) ≡ₚ filed table ++ [enc].
Proof.
  unfold filed, all_enclists, Level1Table.iter, od_values.
  rewrite !flat_map_flat_map, make_tables_step_tables.
  apply (od_set_flat_map _ _ _
           (Level2Table.init (Encoding.ctrl_typevar enc))); [done|].
  apply level2_step_filed.
Qed.

Lemma fold_make_tables_filed encs : ∀ table,
  filed (fold_left make_tables_step encs table) ≡ₚ filed table ++ encs.
Proof.
  induction encs as [|enc encs IH]; intros table; simpl.
  - by rewrite app_nil_r.
  - rewrite IH, make_tables_step_filed. by rewrite <- app_assoc.
Qed.

Lemma make_tables_filed cpumode :
  filed (make_tables cpumode) ≡ₚ mode_encodings cpumode.
Proof. apply (fold_make_tables_filed _ Level1Table.init). Qed.

(** X1.  [make_tables] loses and repeats nothing: the encodings of all
    the lists of the tables, taken together, are the encodings of the
    CPU mode up to their order. *)
Theorem make_tables_files_every_encoding_once (cpumode : CPUMode) :
  flat_map EncList.encodings (all_enclists (make_tables cpumode)) ≡ₚ
    mode_encodings cpumode.
Proof. apply make_tables_filed. Qed.

(** ** [seq_doc] refuses only predicate numbers above [CODE_ALWAYS] *)

(** X4.  [seq_doc] fails exactly for an encoding that carries a predicate
    numbered above 4095; an encoding without predicate is never refused,
    and when [seq_doc] does not fail it gives the tuple and the doc line
    of the encoding. *)
Theorem seq_doc_refuses_only_large_predicate_numbers (enc : Encoding.t) :
  (seq_doc enc = AssertionError ↔
   ∃ instp, Encoding.instp enc = Some instp ∧ 4095 < Instp.number instp) ∧
  (seq_doc enc ≠ AssertionError →
   seq_doc enc = Ok (seq_of enc, doc_line enc)).
Proof.
  unfold seq_doc, seq_of, pred_field, doc_line. rewrite CODE_ALWAYS_eq.
  destruct (Encoding.instp enc) as [instp|]; case_bool_decide as Hle.
  - split; [|done]. split; [done|].
    intros (p & Hp & Hlt). simplify_eq. lia.
  - split; [|by intros []]. split; [|done].
    intros _. exists instp. split; [done|lia].
  - split; [|done]. split; [done|]. by intros (p & ? & ?).
  - lia.
Qed.

(** ** Reading a list back *)

Lemma read_list_triples encs : ∀ more,
  accepted encs →
  read_list (flat_map triple encs ++ CODE_FAIL :: more) =
    Some (map seq_of encs).
Proof.
  induction encs as [|enc encs IH]; intros more Hall; simpl.
  - done.
  - apply Forall_cons in Hall as [Hp Hall].
    rewrite decide_False; last first.
    { rewrite CODE_ALWAYS_eq in Hp. rewrite CODE_FAIL_eq. lia. }
    rewrite decide_True by done. by rewrite (IH _ Hall).
Qed.

Lemma list_words_length encs :
  length (list_words encs) = (3 * length encs + 1)%nat.
Proof.
  unfold list_words. rewrite length_app. simpl.
  induction encs as [|enc encs IH]; simpl in *; lia.
Qed.

(** X5.  The words of an encoded list, whatever follows them in the
    table, read back as the tuples of its encodings in order: the end
    marker is only looked for in the place of a predicate, where the
    assertion of [seq_doc] keeps it out.  The list takes three words for
    each encoding and one for the end marker. *)
Theorem encode_words_read_back (self : EncList.t) words docs more :
  EncList.encode_words self = Ok (words, docs) →
  read_list (words ++ more) = Some (map seq_of (EncList.encodings self)) ∧
  length words = (3 * length (EncList.encodings self) + 1)%nat.
Proof.
  intros H. apply encode_words_inv in H as (Hall & -> & _).
  split; [|apply list_words_length].
  unfold list_words. rewrite <- app_assoc. by apply read_list_triples.
Qed.

(** ** The lists of [make_tables] agree with their keys *)

(** X3.  In the tables of a CPU mode every level 2 table and every list
    carries the keys it is filed under, no list has an offset yet, and
    every encoding of a list is an encoding of the mode with the type
    and the opcode of the list. *)
Theorem make_tables_lists_agree_with_keys cpumode ty tbl inst ls :
  (ty, tbl) ∈ Level1Table.tables (make_tables cpumode) →
  (inst, ls) ∈ Level2Table.lists tbl →
  Level2Table.ty tbl = ty ∧ EncList.ty ls = ty ∧ EncList.inst ls = inst ∧
  EncList.offset ls = None ∧
  ∀ enc, enc ∈ EncList.encodings ls →
    Encoding.ctrl_typevar enc = ty ∧ Encoding.inst enc = inst ∧
    enc ∈ mode_encodings cpumode.
Proof.
  intros Htbl Hls.
  destruct (make_tables_enclist _ _ _ _ _ Htbl Hls) as (Hi & Ht & Ho & He & _).
  destruct (make_tables_ok cpumode) as (Hnd & Hsome & _).
  apply (elem_of_od_get _ _ _ Hnd) in Htbl.
  destruct (Hsome _ _ Htbl) as (Hty & _).
  repeat (split; [done|]).
  intros enc. rewrite He. unfold group. rewrite list_elem_of_filter.
  by intros [[? ?] ?].
Qed.

(** ** [encode_enclists] keeps the tables *)

Lemma encode_enclist_encoded_as ls s ls' s' :
  encode_enclist ls s = Ok (ls', s') → encoded_as ls ls'.
Proof.
  intros H. pose proof (encode_enclist_inv _ _ _ H) as Hall.
  rewrite (encode_enclist_Ok _ _ Hall) in H. simplify_eq. by eexists.
Qed.

Lemma od_traverse_Forall2 {K V S} (f : V → S → result (V * S))
    (R : V → V → Prop) :
  (∀ v s v' s', f v s = Ok (v', s') → R v v') →
  ∀ (d : list (K * V)) s d' s',
    od_traverse f d s = Ok (d', s') →
    Forall2 (λ kv kv', kv'.1 = kv.1 ∧ R kv.2 kv'.2) d d'.
Proof.
  intros Hf. induction d as [|[k v] d IH]; intros s d' s' H; simpl in H.
  - simplify_eq. constructor.
  - destruct (f v s) as [[v' s1]|] eqn:Hv; [|done]. simpl in H.
    destruct (od_traverse f d s1) as [[d1 s2]|] eqn:Hd; [|done].
    simpl in H. simplify_eq. constructor; [|by eapply IH].
    split; [done|]. by eapply Hf.
Qed.

Lemma encode_level2_encoded_as tbl s tbl' s' :
  encode_level2 tbl s = Ok (tbl', s') → level2_encoded_as tbl tbl'.
Proof.
  unfold encode_level2. intros H.
  destruct (od_traverse encode_enclist _ s) as [[lists s1]|] eqn:Hl; [|done].
  simpl in H. simplify_eq. split; [done|]. simpl.
  eapply od_traverse_Forall2; [|done]. apply encode_enclist_encoded_as.
Qed.

Lemma encode_list_keeps_encodings lists : ∀ s lists' s',
  encode_list lists s = Ok (lists', s') →
  map EncList.encodings lists' = map EncList.encodings lists.
Proof.
  induction lists as [|ls lists IH]; intros s lists' s' H.
  - simpl in H. by simplify_eq.
  - apply encode_list_cons_inv in H as (_ & rest & -> & Hrest).
    simpl. f_equal. by eapply IH.
Qed.

(** X6.  [encode_enclists] changes nothing but offsets: the tables it
    leaves have the same keys in the same order and the same lists with
    the same encodings, and every list has an offset. *)
Theorem encode_enclists_keeps_tables level1 s level1' s' :
  encode_enclists level1 s = Ok (level1', s') →
  level1_encoded_as level1 level1' ∧
  Forall (λ ls, is_Some (EncList.offset ls)) (all_enclists level1') ∧
  map EncList.encodings (all_enclists level1') =
    map EncList.encodings (all_enclists level1).
Proof.
  intros H. split; [|split].
  - unfold encode_enclists in H.
    destruct (od_traverse encode_level2 _ s) as [[tables s1]|] eqn:Ht; [|done].
    simpl in H. simplify_eq. unfold level1_encoded_as. simpl.
    eapply od_traverse_Forall2; [|done]. apply encode_level2_encoded_as.
  - pose proof (encode_enclists_flat level1 s) as Hflat. rewrite H in Hflat.
    simpl in Hflat. apply encode_list_recorded in Hflat.
    eapply Forall_impl; [done|]. intros ls (off & -> & _). by eexists.
  - pose proof (encode_enclists_flat level1 s) as Hflat. rewrite H in Hflat.
    simpl in Hflat. by eapply encode_list_keeps_encodings.
Qed.

(** ** When the pass succeeds *)

Lemma encode_list_accepted lists : ∀ s r,
  encode_list lists s = Ok r →
  Forall (λ ls, accepted (EncList.encodings ls)) lists.
Proof.
  induction lists as [|ls lists IH]; intros s [lists' s'] H; [constructor|].
  apply encode_list_cons_inv in H as (Hall & rest & _ & Hrest).
  constructor; [done|]. by eapply IH.
Qed.

Lemma accepted_flat_map lists :
  Forall (λ ls, accepted (EncList.encodings ls)) lists →
  accepted (flat_map EncList.encodings lists).
Proof.
  unfold accepted. induction 1 as [|ls lists Hls _ IH]; simpl; [constructor|].
  by apply Forall_app.
Qed.

Lemma gen_cpumodes_accepted modes s r :
  gen_cpumodes modes s = Ok r →
  Forall (λ cpumode, accepted (mode_encodings cpumode)) modes.
Proof.
  intros H. pose proof (gen_cpumodes_flat modes s) as Hflat.
  rewrite H in Hflat. destruct r as [tables s']. simpl in Hflat.
  apply encode_list_accepted in Hflat. unfold mode_enclists in Hflat.
  clear H. induction modes as [|cpumode modes IH]; [constructor|].
  simpl in Hflat. apply Forall_app in Hflat as [Hmode Hrest].
  constructor; [|by apply IH].
  apply accepted_flat_map in Hmode. unfold accepted in *.
  by rewrite <- (make_tables_filed cpumode).
Qed.

(** X7.  [gen_isa] produces its output exactly when every encoding of
    every CPU mode of the ISA has a predicate field of at most
    [CODE_ALWAYS]; otherwise the assertion of [seq_doc] stops it. *)
Theorem gen_isa_succeeds_iff_accepted (isa : TargetISA) :
  (∃ out, gen_isa isa = Ok out) ↔
  ∀ cpumode enc,
    cpumode ∈ cpumodes isa → enc ∈ mode_encodings cpumode →
    pred_field enc ≤ CODE_ALWAYS.
Proof.
  unfold gen_isa. split.
  - intros [out H].
    destruct (gen_cpumodes _ _) as [[tables [st dt]]|] eqn:Hgen; [|done].
    apply gen_cpumodes_accepted in Hgen. rewrite Forall_forall in Hgen.
    intros cpumode enc Hmode Henc. specialize (Hgen _ Hmode).
    unfold accepted in Hgen. rewrite Forall_forall in Hgen. by apply Hgen.
  - intros Hall.
    destruct (gen_cpumodes_Ok (cpumodes isa) (UniqueSeqTable.empty, ∅))
      as (tables & [st dt] & ->).
    { apply Forall_forall. intros cpumode Hmode. apply Forall_forall.
      intros enc Henc. by eapply Hall. }
    simpl. eauto.
Qed.

(** ** The layout of the emitted array *)

Lemma emit_entries_out doc_table entries : ∀ idx line out,
  emit_entries entries idx doc_table line out =
    ((emit_entries entries idx doc_table line []).1,
     out ++ (emit_entries entries idx doc_table line []).2).
Proof.
  induction entries as [|entry entries IH]; intros idx line out; simpl.
  - by rewrite app_nil_r.
  - destruct (doc_table !! idx) as [docs|]; [case_bool_decide|];
      rewrite IH; symmetry; rewrite IH; simpl; by rewrite <- ?app_assoc.
Qed.

Lemma emit_entries_app doc_table l1 : ∀ l2 idx line out,
  emit_entries (l1 ++ l2) idx doc_table line out =
    emit_entries l2 (idx + length l1) doc_table
      (emit_entries l1 idx doc_table line out).1
      (emit_entries l1 idx doc_table line out).2.
Proof.
  induction l1 as [|entry l1 IH]; intros l2 idx line out; simpl.
  - by rewrite Nat.add_0_r.
  - replace (idx + S (length l1))%nat with (S idx + length l1)%nat by lia.
    destruct (doc_table !! idx) as [docs|]; [case_bool_decide|];
      by rewrite IH.
Qed.

Lemma comments_app out out' : comments (out ++ out') = comments out ++ comments out'.
Proof. apply flat_map_app. Qed.

Lemma comments_Comment docs : comments (map Comment docs) = docs.
Proof. induction docs as [|d docs IH]; simpl; [done|]. by rewrite IH. Qed.

Lemma emit_entries_comments (doc_table : gmap nat (list string)) entries :
  ∀ idx line out,
  comments (emit_entries entries idx doc_table line out).2 =
    comments out ++
    flat_map (λ i, doc_table !!! i) (seq idx (length entries)).
Proof.
  induction entries as [|entry entries IH]; intros idx line out; simpl.
  - by rewrite app_nil_r.
  - rewrite lookup_total_alt.
    destruct (doc_table !! idx) as [docs|]; [case_bool_decide|];
      rewrite IH; simpl; rewrite ?comments_app, ?comments_Comment; simpl;
      by rewrite ?app_nil_r, <- ?app_assoc.
Qed.

Lemma emit_entries_written (doc_table : gmap nat (list string)) entries :
  ∀ idx line out,
  Forall written out →
  Forall written (emit_entries entries idx doc_table line out).2.
Proof.
  induction entries as [|entry entries IH]; intros idx line out Hout; simpl.
  - done.
  - destruct (doc_table !! idx) as [docs|]; [case_bool_decide|]; apply IH;
      rewrite ?Forall_app; repeat split; try done;
      try (apply Forall_forall; intros c [d [-> _]]%list_elem_of_fmap; done).
    by constructor.
Qed.

(** X8.  The comments that [emit_enclists] writes are the lines of the
    doc table under the offsets of the table, offset after offset; lines
    under a key at or beyond the length of the table are not written.
    Besides comments the body holds only lines, none of them empty. *)
Theorem emit_enclists_comments seq_table (doc_table : gmap nat (list string)) :
  comments (indented_body (emit_enclists seq_table doc_table)) =
    flat_map (λ idx, doc_table !!! idx)
      (seq 0 (length (UniqueSeqTable.table seq_table))) ∧
  Forall written (indented_body (emit_enclists seq_table doc_table)).
Proof.
  unfold emit_enclists.
  pose proof (emit_entries_comments doc_table
                (UniqueSeqTable.table seq_table) 0 "" []) as H.
  pose proof (emit_entries_written doc_table
                (UniqueSeqTable.table seq_table) 0 "" [] (Forall_nil_2 _)) as Hw.
  destruct (emit_entries _ _ _ _ _) as [line out]. simpl in *.
  case_bool_decide; [|done]. split.
  - rewrite comments_app. simpl. by rewrite app_nil_r.
  - apply Forall_app. split; [done|]. by repeat constructor.
Qed.

Lemma array_text_flush out line :
  array_text (if bool_decide (line ≠ "") then out ++ [Line line] else out) =
    array_text out +:+ line.
Proof.
  case_bool_decide as Hline.
  - rewrite array_text_app. simpl. by rewrite string_app_nil_r.
  - assert (line = "") as -> by (by destruct (decide (line = ""))).
    by rewrite string_app_nil_r.
Qed.

(** X9.  The comments of an offset stand right before the word at that
    offset: the lines written before them hold exactly the words below
    the offset and the lines written after them the words from the
    offset on. *)
Theorem emit_enclists_comments_before_their_word
    seq_table (doc_table : gmap nat (list string)) idx docs :
  doc_table !! idx = Some docs →
  (idx < length (UniqueSeqTable.table seq_table))%nat →
  ∃ before after,
    indented_body (emit_enclists seq_table doc_table) =
      before ++ map Comment docs ++ after ∧
    array_text before = words_text (take idx (UniqueSeqTable.table seq_table)) ∧
    array_text after = words_text (drop idx (UniqueSeqTable.table seq_table)).
Proof.
  intros Hdocs Hidx. unfold emit_enclists.
  set (table := UniqueSeqTable.table seq_table) in *.
  destruct (drop idx table) as [|entry rest] eqn:Hdrop.
  { apply (f_equal length) in Hdrop. rewrite length_drop in Hdrop.
    simpl in Hdrop. lia. }
  assert (emit_entries table 0 doc_table "" [] =
          emit_entries (take idx table ++ entry :: rest) 0 doc_table "" [])
    as -> by (by rewrite <- Hdrop, take_drop).
  rewrite emit_entries_app.
  rewrite length_take, Nat.min_l by lia. simpl.
  pose proof (emit_entries_text doc_table (take idx table) 0 "" []) as Htext.
  destruct (emit_entries (take idx table) 0 doc_table "" []) as [line1 out1].
  simpl in Htext. simpl. rewrite Hdocs.
  set (flushed := if bool_decide (line1 ≠ "") then out1 ++ [Line line1]
                  else out1).
  assert ((if bool_decide (line1 ≠ "")
           then ("", out1 ++ [Line line1]) else (line1, out1)) =
          ("", flushed)) as ->.
  { subst flushed. case_bool_decide as Hline; [done|].
    by destruct (decide (line1 = "")) as [->|]. }
  rewrite emit_entries_out.
  pose proof (emit_entries_text doc_table rest (S idx)
                ("" +:+ format_06x_alt entry +:+ ", ") []) as Hrest.
  destruct (emit_entries rest (S idx) doc_table _ []) as [line2 out2].
  simpl in Hrest. simpl.
  exists flushed,
    (if bool_decide (line2 ≠ "") then out2 ++ [Line line2] else out2).
  split; [|split].
  - case_bool_decide; by rewrite <- ?app_assoc.
  - subst flushed. rewrite array_text_flush. exact Htext.
  - rewrite array_text_flush, Hrest.
    change ((format_06x_alt entry +:+ ", ") +:+ words_text rest =
            format_06x_alt entry +:+ ", " +:+ words_text rest).
    by rewrite string_app_assoc.
Qed.

(** ** The fields of the pattern of [emit_instp] *)

Lemma ascii_compare_Lt_trans a b c :
  Ascii.compare a b = Lt → Ascii.compare b c = Lt → Ascii.compare a c = Lt.
Proof.
  unfold Ascii.compare. rewrite !N.compare_lt_iff. lia.
Qed.

Lemma string_compare_Lt_trans s1 : ∀ s2 s3,
  String.compare s1 s2 = Lt → String.compare s2 s3 = Lt →
  String.compare s1 s3 = Lt.
Proof.
  induction s1 as [|c1 s1 IH]; intros [|c2 s2] [|c3 s3]; simpl; try done.
  destruct (Ascii.compare c1 c2) eqn:H12; [|clear IH|done];
    destruct (Ascii.compare c2 c3) eqn:H23; try done.
  - apply Ascii.compare_eq_iff in H12, H23. subst.
    replace (Ascii.compare c3 c3) with Eq; [apply IH|].
    symmetry. unfold Ascii.compare. apply N.compare_refl.
  - apply Ascii.compare_eq_iff in H12. subst. by rewrite H23.
  - apply Ascii.compare_eq_iff in H23. subst. by rewrite H12.
  - by rewrite (ascii_compare_Lt_trans _ _ _ H12 H23).
Qed.

Lemma string_ltb_trans s1 s2 s3 :
  String.ltb s1 s2 = true → String.ltb s2 s3 = true →
  String.ltb s1 s3 = true.
Proof.
  unfold String.ltb. intros H12 H23.
  rewrite (string_compare_Lt_trans s1 s2 s3); [done| |].
  - by destruct (String.compare s1 s2).
  - by destruct (String.compare s2 s3).
Qed.

Lemma string_ltb_irrefl s : String.ltb s s = false.
Proof.
  unfold String.ltb. pose proof (String.compare_antisym s s) as H.
  by destruct (String.compare s s).
Qed.

Lemma string_ltb_total s1 s2 :
  String.ltb s1 s2 = false → String.eqb s1 s2 = false →
  String.ltb s2 s1 = true.
Proof.
  unfold String.ltb. rewrite String.eqb_neq. intros Hlt Hne.
  rewrite (String.compare_antisym s2 s1). revert Hlt.
  destruct (String.compare s1 s2) eqn:Hc; simpl; try done.
  apply String.compare_eq_iff in Hc. done.
Qed.

Lemma elem_of_insert_sorted x l y :
  y ∈ insert_sorted x l ↔ y = x ∨ y ∈ l.
Proof.
  induction l as [|z l IH]; simpl.
  - rewrite list_elem_of_singleton, elem_of_nil. naive_solver.
  - destruct (String.ltb x z); [|destruct (String.eqb x z) eqn:Heq].
    + by rewrite elem_of_cons.
    + apply String.eqb_eq in Heq as ->. rewrite elem_of_cons. naive_solver.
    + rewrite !elem_of_cons, IH. naive_solver.
Qed.

Lemma insert_sorted_ascending x l :
  ascending l → ascending (insert_sorted x l).
Proof.
  induction l as [|z l IH]; simpl; [done|]. intros [Hz Hl].
  destruct (String.ltb x z) eqn:Hlt; [|destruct (String.eqb x z) eqn:Heq].
  - simpl. split; [|done]. constructor; [done|].
    eapply Forall_impl; [done|]. intros y Hy. simpl in Hy.
    by eapply string_ltb_trans.
  - done.
  - simpl. split; [|by apply IH].
    apply Forall_forall. intros y [->|Hy]%elem_of_insert_sorted.
    + by apply string_ltb_total.
    + rewrite Forall_forall in Hz. by apply Hz.
Qed.

Lemma sorted_set_ascending l : ascending (sorted_set l).
Proof.
  induction l as [|x l IH]; simpl; [done|]. by apply insert_sorted_ascending.
Qed.

Lemma elem_of_sorted_set l y : y ∈ sorted_set l ↔ y ∈ l.
Proof.
  induction l as [|x l IH]; simpl; [done|].
  rewrite elem_of_insert_sorted, elem_of_cons, IH. done.
Qed.

Lemma ascending_NoDup l : ascending l → NoDup l.
Proof.
  induction l as [|x l IH]; simpl; [constructor|]. intros [Hx Hl].
  constructor; [|by apply IH]. intros Hin.
  rewrite Forall_forall in Hx. specialize (Hx _ Hin).
  by rewrite string_ltb_irrefl in Hx.
Qed.

(** X10.  The pattern that [emit_instp] writes binds [ref data] for a
    format with boxed storage; otherwise it binds the field names of the
    leaves of the predicate, each once and in strictly ascending order,
    joined by commas. *)
Theorem emit_instp_fields (instp : Instp.t) :
  let iform := Instp.predicate_context instp in
  let arm := emit_instp instp in
  (boxed_storage iform = true → Rust.arm_fields arm = "ref data") ∧
  (boxed_storage iform = false →
   ∃ fields,
     Rust.arm_fields arm = join ", " fields ∧
     ascending fields ∧ NoDup fields ∧
     ∀ name, name ∈ fields ↔ name ∈ Instp.predicate_leafs instp).
Proof.
  intros iform arm. subst arm iform. unfold emit_instp. simpl. split.
  - by intros ->.
  - intros ->. exists (sorted_set (Instp.predicate_leafs instp)).
    split; [done|]. split; [apply sorted_set_ascending|].
    split; [apply ascending_NoDup, sorted_set_ascending|].
    intros name. apply elem_of_sorted_set.
Qed.

(** ** The dispatcher takes the first arm of a number *)


(** ** Where [encode] puts its doc lines *)

Lemma doc_lines_below off k encs : ∀ base,
  (k < off + base)%nat →
  filter (λ '(pos, _), k = (off + pos)%nat) (doc_lines base encs) = [].
Proof.
  induction encs as [|e encs IH]; intros base Hk; [done|].
  simpl. rewrite filter_cons, decide_False by lia. apply IH. lia.
Qed.

Lemma doc_lines_at off k encs : ∀ base i enc,
  encs !! i = Some enc → k = (off + base + 3 * i)%nat →
  (filter (λ '(pos, _), k = (off + pos)%nat) (doc_lines base encs)).*2 =
    [doc_line enc].
Proof.
  induction encs as [|e encs IH]; intros base i enc Hi Hk; [done|].
  simpl. rewrite filter_cons. destruct i as [|i]; simpl in Hi.
  - simplify_eq. rewrite decide_True by lia. simpl.
    rewrite doc_lines_below by lia. done.
  - rewrite decide_False by lia. apply (IH _ i); [done|lia].
Qed.

Lemma doc_lines_elsewhere off k encs : ∀ base,
  (∀ i, (i < length encs)%nat → k ≠ (off + base + 3 * i)%nat) →
  filter (λ '(pos, _), k = (off + pos)%nat) (doc_lines base encs) = [].
Proof.
  induction encs as [|e encs IH]; intros base Hk; [done|].
  simpl. rewrite filter_cons, decide_False; last first.
  { specialize (Hk 0%nat). simpl in Hk. lia. }
  apply IH. intros i Hi. specialize (Hk (S i)). simpl in Hk. lia.
Qed.

(** X12.  A successful [encode] appends under the offset of the list its
    name line and then the doc line of its first encoding, under the
    offset plus 3 * i the doc line of its i-th encoding, and leaves the
    lines under every other key as they were. *)
Theorem encode_doc_placement (self : EncList.t) seq_table
    (doc_table : gmap nat (list string)) self' seq_table' doc_table' :
  EncList.encode self seq_table doc_table = Ok (self', seq_table', doc_table') →
  ∃ off,
    EncList.offset self' = Some off ∧
    doc_table' !!! off =
      doc_table !!! off ++
      name_line self off :: (doc_line <$> take 1 (EncList.encodings self)) ∧
    (∀ i enc, (0 < i)%nat → EncList.encodings self !! i = Some enc →
       doc_table' !!! (off + 3 * i)%nat =
         doc_table !!! (off + 3 * i)%nat ++ [doc_line enc]) ∧
    (∀ k, k ≠ off →
       (∀ i, (i < length (EncList.encodings self))%nat →
             k ≠ (off + 3 * i)%nat) →
       doc_table' !!! k = doc_table !!! k).
Proof.
  intros H. pose proof (encode_inv _ _ _ _ H) as Hall.
  rewrite (encode_Ok _ _ _ Hall) in H. simplify_eq.
  set (off := (UniqueSeqTable.add seq_table
                 (list_words (EncList.encodings self))).2).
  exists off. split; [done|]. split; [|split].
  - rewrite add_docs_lookup, doc_append_lookup, decide_True by done.
    rewrite <- app_assoc. f_equal. simpl. f_equal.
    destruct (EncList.encodings self) as [|enc encs] eqn:Hencs; [done|].
    simpl. rewrite filter_cons, decide_True by lia. simpl.
    rewrite doc_lines_below by lia. done.
  - intros i enc Hi Henc.
    rewrite add_docs_lookup, doc_append_lookup, decide_False by lia.
    rewrite app_nil_r. f_equal.
    apply (doc_lines_at off _ _ 0%nat i); [done|lia].
  - intros k Hk Hnone.
    rewrite add_docs_lookup, doc_append_lookup, decide_False by done.
    rewrite doc_lines_elsewhere; [by rewrite !app_nil_r|].
    intros i Hi. rewrite Nat.add_0_r. by apply Hnone.
Qed.

Lemma encode_doc_placement_witness :
  ∃ off,
    EncList.offset two_encoded_alone.1.1 = Some off ∧
    two_encoded_alone.2 !!! off =
      (∅ : gmap nat (list string)) !!! off ++
      name_line Sample.two off ::
        (doc_line <$> take 1 (EncList.encodings Sample.two)) ∧
    (∀ i enc, (0 < i)%nat → EncList.encodings Sample.two !! i = Some enc →
       two_encoded_alone.2 !!! (off + 3 * i)%nat =
         (∅ : gmap nat (list string)) !!! (off + 3 * i)%nat
           ++ [doc_line enc]) ∧
    (∀ k, k ≠ off →
       (∀ i, (i < length (EncList.encodings Sample.two))%nat →
             k ≠ (off + 3 * i)%nat) →
       two_encoded_alone.2 !!! k = (∅ : gmap nat (list string)) !!! k).
Proof.
  apply (encode_doc_placement Sample.two UniqueSeqTable.empty ∅
           two_encoded_alone.1.1 two_encoded_alone.1.2 two_encoded_alone.2).
  vm_compute. reflexivity.
Defined.

(** ** The further properties on the sample instruction set *)

Lemma make_tables_keys_in_first_occurrence_order_witness :
  (Level2Table.lists Sample.RV32_i32).*1 =
    first_occurrences
      (map Encoding.inst (of_type (Some Sample.i32) (mode_encodings Sample.RV32))).
Proof.
  apply (proj2 (make_tables_keys_in_first_occurrence_order Sample.RV32)
           (Some Sample.i32) Sample.RV32_i32).
  apply list_elem_of_In. vm_compute. left. reflexivity.
Defined.

Lemma make_tables_lists_agree_with_keys_witness :
  Level2Table.ty Sample.RV32_no_type = None ∧
  EncList.ty Sample.RV32_jump = None ∧
  EncList.inst Sample.RV32_jump = Sample.jump ∧
  EncList.offset Sample.RV32_jump = None ∧
  ∀ enc, enc ∈ EncList.encodings Sample.RV32_jump →
    Encoding.ctrl_typevar enc = None ∧ Encoding.inst enc = Sample.jump ∧
    enc ∈ mode_encodings Sample.RV32.
Proof.
  apply (make_tables_lists_agree_with_keys Sample.RV32 None
           Sample.RV32_no_type Sample.jump Sample.RV32_jump).
  - apply list_elem_of_In. vm_compute. right. left. reflexivity.
  - apply list_elem_of_In. vm_compute. left. reflexivity.
Defined.

Lemma seq_doc_refuses_only_large_predicate_numbers_witness :
  seq_doc (Sample.e1 "RV32") =
    Ok (seq_of (Sample.e1 "RV32"), doc_line (Sample.e1 "RV32")).
Proof.
  apply (proj2 (seq_doc_refuses_only_large_predicate_numbers
                  (Sample.e1 "RV32"))).
  vm_compute. discriminate.
Defined.

Lemma encode_words_read_back_witness :
  read_list ([3; 5; 1; 4095; 7; 2; 65535] ++ [4095; 9; 4; 65535]) =
    Some (map seq_of (EncList.encodings Sample.two)) ∧
  length ([3; 5; 1; 4095; 7; 2; 65535] : list Z) =
    (3 * length (EncList.encodings Sample.two) + 1)%nat.
Proof.
  apply (encode_words_read_back Sample.two [3; 5; 1; 4095; 7; 2; 65535]
           (doc_lines 0 (EncList.encodings Sample.two))).
  reflexivity.
Defined.

Lemma encode_enclists_keeps_tables_witness :
  level1_encoded_as (make_tables Sample.RV32) Sample2.RV32_encoded.1 ∧
  Forall (λ ls, is_Some (EncList.offset ls))
    (all_enclists Sample2.RV32_encoded.1) ∧
  map EncList.encodings (all_enclists Sample2.RV32_encoded.1) =
    map EncList.encodings (all_enclists (make_tables Sample.RV32)).
Proof.
  apply (encode_enclists_keeps_tables (make_tables Sample.RV32)
           (UniqueSeqTable.empty, ∅) Sample2.RV32_encoded.1
           Sample2.RV32_encoded.2).
  vm_compute. reflexivity.
Defined.

Lemma gen_isa_succeeds_iff_accepted_witness :
  pred_field (Sample.e1 "RV64") ≤ CODE_ALWAYS.
Proof.
  apply (proj1 (gen_isa_succeeds_iff_accepted Sample.isa)) with Sample.RV64.
  - eexists. vm_compute. reflexivity.
  - apply list_elem_of_In. simpl. right. left. reflexivity.
  - apply list_elem_of_In. simpl. left. reflexivity.
Defined.

Lemma emit_enclists_comments_before_their_word_witness :
  ∃ before after,
    indented_body
      (emit_enclists Sample.encoded.2.1 Sample.encoded.2.2) =
      before ++ map Comment ["--> [R]"; "--> [R]"] ++ after ∧
    array_text before =
      words_text (take 3 (UniqueSeqTable.table Sample.encoded.2.1)) ∧
    array_text after =
      words_text (drop 3 (UniqueSeqTable.table Sample.encoded.2.1)).
Proof.
  apply (emit_enclists_comments_before_their_word
           Sample.encoded.2.1 Sample.encoded.2.2 3).
  - vm_compute. reflexivity.
  - vm_compute. lia.
Defined.

Lemma emit_instp_fields_witness :
  ∃ fields,
    Rust.arm_fields (emit_instp Sample2.in_range) = join ", " fields ∧
    ascending fields ∧ NoDup fields ∧
    ∀ name, name ∈ fields ↔ name ∈ Instp.predicate_leafs Sample2.in_range.
Proof.
  apply (proj2 (emit_instp_fields Sample2.in_range)). reflexivity.
Defined.

(** ** The names of the lists of [make_tables] *)

(** X13.  The name of a list in the tables of a CPU mode is its opcode,
    then a dot and its type when it has one, then in parentheses the CPU
    mode of the first encoding of the mode with the keys of the list:
    the case of [name] for a list without encodings does not arise. *)
Theorem make_tables_list_name cpumode ty tbl inst ls :
  (ty, tbl) ∈ Level1Table.tables (make_tables cpumode) →
  (inst, ls) ∈ Level2Table.lists tbl →
  ∃ enc,
    head (filter (keyed ty inst) (mode_encodings cpumode)) = Some enc ∧
    EncList.name ls =
      match ty with
      | Some ty => inst_name inst +:+ "." +:+ ty_name ty
      | None => inst_name inst
      end +:+ " (" +:+ Encoding.cpumode enc +:+ ")".
Proof.
  intros Htbl Hls.
  destruct (make_tables_enclist _ _ _ _ _ Htbl Hls)
    as (Hinst & Hty & _ & Hencs & Hne).
  unfold EncList.name. rewrite Hinst, Hty, Hencs in *. unfold group in *.
  destruct (filter (keyed ty inst) (mode_encodings cpumode)) as [|enc encs];
    [done|].
  exists enc. split; [done|]. by destruct ty.
Qed.

Lemma make_tables_list_name_witness :
  ∃ enc,
    head (filter (keyed None Sample.jump) (mode_encodings Sample.RV32))
      = Some enc ∧
    EncList.name Sample.RV32_jump =
      inst_name Sample.jump +:+ " (" +:+ Encoding.cpumode enc +:+ ")".
Proof.
  apply (make_tables_list_name Sample.RV32 None Sample.RV32_no_type
           Sample.jump Sample.RV32_jump).
  - apply list_elem_of_In. vm_compute. right. left. reflexivity.
  - apply list_elem_of_In. vm_compute. left. reflexivity.
Defined.
